(** * ChatBot: the assistant session of the USS-Water site

    A shallow embedding of [src/components/ChatBot.tsx]: the React state of
    the [ChatBot] component, the memoised chat session, the asynchronous
    [handleSend] with its [try]/[catch]/[finally], the key handler and the
    send button, and an event loop that delivers user events and gateway
    settlements.

    Conventions.
    - A JavaScript string is the list of its UTF-16 code units ([list N]).
    - A state setter ([setInput], [setMessages], ...) is applied to the state
      at the point of the call.  [handleSend] reads [input] and [chatSession]
      before its first setter call, and React commits the state between two
      discrete events, so the handlers of the open window run on the
      committed state.
    - A window that closes stays on screen until its exit animation is
      complete ([AnimatePresence], lines 141-148), with the handlers and
      the [disabled] attribute of the last render in which it was open:
      those handlers run on the [input] and [isLoading] of that render.
    - The component function may run again at any time, in whatever the
      environment has become; [useMemo] decides whether line 71 calculates
      again.
    - The gateway SDK is outside the repository: it is an [environment] of
      two constructors that either return or throw, and a [sendMessage]
      that returns a promise, which the event loop settles later, once,
      with an [outcome].
    - Rendering ([scrollToBottom], the markup) is left out, except for what
      decides which handler can run: whether the window is on screen, and
      the [disabled] attribute of the send button. *)

From Stdlib Require Import NArith Strings.Ascii.
From stdpp Require Import base option list strings gmap.

Local Open Scope N_scope.
Local Open Scope list_scope.

(** ** JavaScript strings *)

Abbreviation jsstring := (list N).

Fixpoint str (s : string) : jsstring :=
  match s with
  | EmptyString => []
  | String c r => N_of_ascii c :: str r
  end.

Definition dq : jsstring := [0x22].
Definition nl : jsstring := [0x0A].

(** ECMAScript [WhiteSpace] and [LineTerminator] code points; all of them
    are in the basic plane, so one code unit each. *)
Definition WhiteSpace (c : N) : bool :=
  (c =? 0x09) || (c =? 0x0B) || (c =? 0x0C) || (c =? 0x20) || (c =? 0xA0)
  || (c =? 0x1680) || ((0x2000 <=? c) && (c <=? 0x200A))
  || (c =? 0x202F) || (c =? 0x205F) || (c =? 0x3000) || (c =? 0xFEFF).

Definition LineTerminator (c : N) : bool :=
  (c =? 0x0A) || (c =? 0x0D) || (c =? 0x2028) || (c =? 0x2029).

Definition is_space (c : N) : bool := WhiteSpace c || LineTerminator c.

Fixpoint trimStart (s : jsstring) : jsstring :=
  match s with
  | [] => []
  | c :: r => if is_space c then trimStart r else s
  end.

Definition trimEnd (s : jsstring) : jsstring :=
  reverse (trimStart (reverse s)).

(** [String.prototype.trim] *)
Definition trim (s : jsstring) : jsstring := trimEnd (trimStart s).

(** [ToBoolean] on a string: only the empty string is falsy. *)
Definition truthy (s : jsstring) : bool :=
  match s with [] => false | _ :: _ => true end.

(** [a || b] where [a] is a string or [undefined]. *)
Definition or_else (a : option jsstring) (b : jsstring) : jsstring :=
  match a with
  | Some t => if truthy t then t else b
  | None => b
  end.

Definition jsstring_eqb (a b : jsstring) : bool := bool_decide (a = b).

(** ** Constants of the component *)

(** Lines 11-52: the template literal, one entry per source line, each
    followed by a line feed. *)
Definition SYSTEM_INSTRUCTION_lines : list jsstring := [
  (str "You are the AI research assistant for the " ++ dq ++ str "USS-Water" ++ dq ++ str " website. ");
  (str "Your goal is to answer questions about the paper " ++ dq ++ str "USS-Water: High-Resolution Satellite Mapping of U.S. Surface Water" ++ dq ++ str " (Scientific Reports, 2024).");
  ([]);
  (str "KEY FACTS:");
  (str "- Authors: Madhu Goutham Reddy Ambati (Lead), Nischal Vooda, Mohammed Sohaib Uddin, Abdul Rahman Shaikh, Mani Sai Lakshmi Karasani, M. Courtney Hughes, Mahdi Vaezi (NIU).");
  (str "- Problem: Traditional satellite water detection (Landsat/Sentinel) has low resolution (10-30m), missing small water bodies like narrow streams and ponds.");
  (str "- Dataset (" ++ dq ++ str "USS-Water" ++ dq ++ str "): ");
  (str "  - Source: High-resolution RGB imagery from Google Earth Pro.");
  (str "  - Size: 1,483 images, 1.48 billion labeled pixels.");
  (str "  - Resolution: 0.3 meters/pixel.");
  (str "  - Coverage: 147 locations across 44 U.S. states.");
  (str "  - Classes (7): Rivers, Lakes, Ponds, Reservoirs, Wetlands, Creeks, Coastal.");
  (str "  - Preprocessing: ");
  (str "    - Images cropped to remove map legends and UI artifacts.");
  (str "    - Sliced into smaller patches for training to fit GPU memory constraints.");
  (str "    - Data Augmentation: Techniques like rotation, flipping, and brightness adjustments were used to improve generalization.");
  (str "- Model (" ++ dq ++ str "U-Net+" ++ dq ++ str "):");
  (str "  - Architecture: Customized U-Net with efficient encoder-decoder blocks.");
  (str "  - Key Innovation 1: Patch Compression - Handles large input images by resizing and intelligent tiling, significantly reducing memory overhead.");
  (str "  - Key Innovation 2: Depth-wise Separable Convolutions - Replaces standard convolutions to reduce parameter count by ~40% and drastically speed up inference.");
  (str "- Performance:");
  (str "  - F1 Score: 93.6% (Competitive with state-of-the-art).");
  (str "  - Inference Speed: 6.0 FPS on RTX 3090 (3x faster than MSResNet-34).");
  (str "  - VRAM Usage: Highly efficient (4.2GB), allowing deployment on standard consumer hardware.");
  (str "- Comparison:");
  (str "  - MSResNet-34: Slightly higher accuracy (95.4% F1) but computationally expensive (10.7GB VRAM, 1.9 FPS).");
  (str "  - DeepLabV3+: Lower accuracy (92.0% F1) and slower (2.1 FPS).");
  (str "  - SegFormer-B0: Good balance (94.1% F1), but U-Net+ is optimized specifically for speed/accuracy trade-off in this domain.");
  ([]);
  (str "LIMITATIONS & ASSUMPTIONS:");
  (str "- Reliance on RGB: The model uses only Red, Green, Blue channels. It lacks Near-Infrared (NIR) bands (common in Landsat/Sentinel), yet achieves high accuracy through deep learning feature extraction.");
  (str "- Environmental Challenges: ");
  (str "  - Heavy cloud cover or thick atmospheric haze can obstruct detection.");
  (str "  - Extreme shadows in dense urban canyons (skyscrapers) may occasionally result in false negatives.");
  (str "  - Frozen water bodies or snow cover in winter are not the primary target and may be misclassified.");
  (str "- Seasonality: The dataset captures specific temporal snapshots; highly ephemeral streams (dry season) might be underrepresented.");
  ([]);
  (str "BEHAVIOR:");
  (str "- Keep answers concise, professional, and scientific.");
  (str "- If asked about code or data availability, refer to the GitHub link provided in the interface.");
  (str "- If asked unrelated questions, politely steer the conversation back to the paper's findings.")
].

Definition SYSTEM_INSTRUCTION : jsstring :=
  List.concat (map (fun l => l ++ nl) SYSTEM_INSTRUCTION_lines).

Inductive Role := user | model.

Record Message := { role : Role; text : jsstring }.

(** Line 63: the seed of [useState<Message[]>]. *)
Definition greeting : Message :=
  {| role := model;
     text := str "Hi! I'm the USS-Water AI assistant. Ask me anything about the dataset, the U-Net+ model, or our results." |}.

(** ** The gateway SDK, as the component sees it *)

Inductive error := Error (message : jsstring).

Inductive completion (A : Type) :=
| Normal (a : A)
| Abrupt (e : error).
Arguments Normal {A} a.
Arguments Abrupt {A} e.

Inductive GoogleGenerativeAI := Client (id : nat).
Inductive chat := Chat (id : nat).

Record ClientOptions := { apiKey : option jsstring }.
Record ChatConfig := { systemInstruction : jsstring }.
Record CreateChatParameters := { create_model : jsstring; config : ChatConfig }.
Record SendMessageParameters := { message : jsstring }.
Record GenerateContentResponse := { response_text : option jsstring }.

Inductive outcome :=
| Fulfilled (result : GenerateContentResponse)
| Rejected (reason : error).

Record environment := {
  API_KEY : option jsstring;
  new_GoogleGenerativeAI : ClientOptions -> completion GoogleGenerativeAI;
  chats_create : GoogleGenerativeAI -> CreateChatParameters -> completion chat
}.

(** ** What the component does to the outside *)

Inductive effect :=
| EConstruct (o : ClientOptions)
| EChatsCreate (ai : GoogleGenerativeAI) (p : CreateChatParameters)
| ESendMessage (cs : chat) (p : SendMessageParameters)
| EConsoleError (label : jsstring) (e : error)
| EPreventDefault
| ESetIsOpen (v : bool)
| ESetInput (v : jsstring)
| ESetMessages (v : list Message)
| ESetIsLoading (v : bool)
| EUnhandledRejection (e : error).

(** ** Synchronous code that may throw: the [useMemo] factory *)

Definition sync (A : Type) : Type := completion A * list effect.

Definition sync_ret {A} (a : A) : sync A := (Normal a, []).

Definition sync_bind {A B} (m : sync A) (f : A -> sync B) : sync B :=
  match m with
  | (Normal a, t) => let '(c, t') := f a in (c, t ++ t')
  | (Abrupt e, t) => (Abrupt e, t)
  end.

Definition sync_try_catch {A} (body : sync A) (handler : error -> sync A) : sync A :=
  match body with
  | (Normal a, t) => (Normal a, t)
  | (Abrupt e, t) => let '(c, t') := handler e in (c, t ++ t')
  end.

Definition sync_call {A} (e : effect) (r : completion A) : sync A := (r, [e]).

#[global] Instance sync_mret : MRet sync := @sync_ret.
#[global] Instance sync_mbind : MBind sync := fun A B f m => sync_bind m f.

Module Factory.
Section Factory.
Context (env : environment).

Definition construct (o : ClientOptions) : sync GoogleGenerativeAI :=
  sync_call (EConstruct o) (new_GoogleGenerativeAI env o).

Definition create (ai : GoogleGenerativeAI) (p : CreateChatParameters) : sync chat :=
  sync_call (EChatsCreate ai p) (chats_create env ai p).

Definition console_error (label : jsstring) (e : error) : sync unit :=
  sync_call (EConsoleError label e) (Normal tt).

(** Lines 71-84: the function given to [useMemo]. *)
Definition chatSession : sync (option chat) :=
  sync_try_catch
    (ai ← construct {| apiKey := API_KEY env |};
     cs ← create ai {| create_model := str "gemini-3-flash-preview";
                       config := {| systemInstruction := SYSTEM_INSTRUCTION |} |};
     mret (Some cs))
    (fun error =>
       console_error (str "Failed to initialize Gemini AI") error ;;
       mret None).
End Factory.
End Factory.

(** ** Asynchronous code: procedures that may suspend on the gateway *)

Inductive action :=
| setIsOpen (v : bool)
| setInput (v : jsstring)
| setMessages (updater : list Message -> list Message)
| setIsLoading (v : bool)
| console_error (label : jsstring) (e : error)
| preventDefault.

(** [Await cs p k] is [await cs.sendMessage(p)] followed by [k]: the call
    is made, the procedure is suspended, and [k] receives the settlement. *)
Inductive proc :=
| Return
| Throw (e : error)
| Do (a : action) (k : proc)
| Await (cs : chat) (p : SendMessageParameters) (k : outcome -> proc).

Notation "a ;> k" := (Do a k) (at level 100, k at level 200, right associativity).

Fixpoint seq (p q : proc) : proc :=
  match p with
  | Return => q
  | Throw e => Throw e
  | Do a k => Do a (seq k q)
  | Await cs m k => Await cs m (fun o => seq (k o) q)
  end.

Fixpoint try_catch (body : proc) (handler : error -> proc) : proc :=
  match body with
  | Return => Return
  | Throw e => handler e
  | Do a k => Do a (try_catch k handler)
  | Await cs m k => Await cs m (fun o => try_catch (k o) handler)
  end.

(** The finaliser runs on both completions and the completion of the
    body is kept, unless the finaliser itself throws. *)
Fixpoint try_finally (body : proc) (finalizer : proc) : proc :=
  match body with
  | Return => finalizer
  | Throw e => seq finalizer (Throw e)
  | Do a k => Do a (try_finally k finalizer)
  | Await cs m k => Await cs m (fun o => try_finally (k o) finalizer)
  end.

Definition try_catch_finally (body : proc) (handler : error -> proc) (finalizer : proc) : proc :=
  try_finally (try_catch body handler) finalizer.

(** A rejected promise makes [await] throw its reason. *)
Definition awaited (k : GenerateContentResponse -> proc) (o : outcome) : proc :=
  match o with
  | Fulfilled result => k result
  | Rejected reason => Throw reason
  end.

Definition await_sendMessage (cs : chat) (p : SendMessageParameters)
    (k : GenerateContentResponse -> proc) : proc :=
  Await cs p (awaited k).

(** Lines 104-106: the rest of the [try] block once the promise is fulfilled. *)
Definition handleSend_try (result : GenerateContentResponse) : proc :=
  let responseText := response_text result in
  setMessages (fun prev =>
    prev ++ [{| role := model;
                text := or_else responseText (str "I couldn't generate a response.") |}]) ;>
  Return.

(** Lines 107-109. *)
Definition handleSend_catch (error : error) : proc :=
  console_error (str "Chat Error:") error ;>
  setMessages (fun prev =>
    prev ++ [{| role := model;
                text := str "Sorry, I encountered an error connecting to the AI service." |}]) ;>
  Return.

(** Lines 110-112. *)
Definition handleSend_finally : proc :=
  setIsLoading false ;> Return.

(** Lines 94-113, on the [input] and [chatSession] of the current render.
    Past the guard of line 95 [chatSession] is not [null]. *)
Definition handleSend (input : jsstring) (chatSession : option chat) : proc :=
  if negb (truthy (trim input)) || negb (bool_decide (is_Some chatSession))
  then Return
  else
    match chatSession with
    | None => Return
    | Some cs =>
        let userMessage := trim input in
        setInput [] ;>
        setMessages (fun prev => prev ++ [{| role := user; text := userMessage |}]) ;>
        setIsLoading true ;>
        try_catch_finally
          (await_sendMessage cs {| message := userMessage |} handleSend_try)
          handleSend_catch
          handleSend_finally
    end.

(** Lines 115-120. The promise of [handleSend] is dropped. *)
Definition handleKeyPress (key : jsstring) (shiftKey : bool)
    (input : jsstring) (chatSession : option chat) : proc :=
  if jsstring_eqb key (str "Enter") && negb shiftKey then
    preventDefault ;> handleSend input chatSession
  else Return.

(** ** React's [useMemo]

    The hook keeps the value of the last calculation with the dependencies
    it was made for; a render calls the calculation again only when there
    is nothing kept or the dependencies differ. *)

Inductive dep :=
| dep_number (n : Z)
| dep_string (s : jsstring)
| dep_boolean (b : bool).

#[global] Instance dep_eq_dec : EqDecision dep := ltac:(solve_decision).

(** [areHookInputsEqual]: the same length, and [Object.is] at every
    position. *)
Definition areHookInputsEqual (nextDeps prevDeps : list dep) : bool :=
  bool_decide (nextDeps = prevDeps).

Definition useMemo {A : Type} (calculate : sync A) (deps : list dep)
    (kept : option (A * list dep)) : sync (A * option (A * list dep)) :=
  match kept with
  | Some (value, prevDeps) =>
      if areHookInputsEqual deps prevDeps
      then mret (value, kept)
      else value' ← calculate; mret (value', Some (value', deps))
  | None => value' ← calculate; mret (value', Some (value', deps))
  end.

(** ** The component instance *)

(** The four [useState] cells; [chatSession], the value [useMemo] returned
    in the last render, and [memo], what the hook keeps; [exiting], the
    render of the chat window that [AnimatePresence] keeps on screen while
    the window closes (the [input] and [isLoading] its handlers and its
    [disabled] attribute were made from); the activations of [handleSend]
    suspended at line 103, keyed by the request they wait for; and the
    trace of what the component has done so far. *)
Record state := {
  isOpen : bool;
  input : jsstring;
  messages : list Message;
  isLoading : bool;
  chatSession : option chat;
  memo : option (option chat * list dep);
  exiting : option (jsstring * bool);
  inflight : gmap nat (outcome -> proc);
  next_request : nat;
  trace : list effect
}.

Definition emit (e : effect) (s : state) : state :=
  {| isOpen := isOpen s; input := input s; messages := messages s;
     isLoading := isLoading s; chatSession := chatSession s;
     memo := memo s; exiting := exiting s;
     inflight := inflight s; next_request := next_request s;
     trace := trace s ++ [e] |}.

Definition perform (a : action) (s : state) : state :=
  match a with
  | setIsOpen v =>
      emit (ESetIsOpen v)
        {| isOpen := v; input := input s; messages := messages s;
           isLoading := isLoading s; chatSession := chatSession s;
     memo := memo s; exiting := exiting s;
           inflight := inflight s; next_request := next_request s;
           trace := trace s |}
  | setInput v =>
      emit (ESetInput v)
        {| isOpen := isOpen s; input := v; messages := messages s;
           isLoading := isLoading s; chatSession := chatSession s;
     memo := memo s; exiting := exiting s;
           inflight := inflight s; next_request := next_request s;
           trace := trace s |}
  | setMessages updater =>
      let v := updater (messages s) in
      emit (ESetMessages v)
        {| isOpen := isOpen s; input := input s; messages := v;
           isLoading := isLoading s; chatSession := chatSession s;
     memo := memo s; exiting := exiting s;
           inflight := inflight s; next_request := next_request s;
           trace := trace s |}
  | setIsLoading v =>
      emit (ESetIsLoading v)
        {| isOpen := isOpen s; input := input s; messages := messages s;
           isLoading := v; chatSession := chatSession s;
     memo := memo s; exiting := exiting s;
           inflight := inflight s; next_request := next_request s;
           trace := trace s |}
  | console_error label e => emit (EConsoleError label e) s
  | preventDefault => emit EPreventDefault s
  end.

(** The call of line 103 is made and the activation is parked. *)
Definition suspend (cs : chat) (p : SendMessageParameters) (k : outcome -> proc)
    (s : state) : state :=
  {| isOpen := isOpen s; input := input s; messages := messages s;
     isLoading := isLoading s; chatSession := chatSession s;
     memo := memo s; exiting := exiting s;
     inflight := <[next_request s := k]> (inflight s);
     next_request := S (next_request s);
     trace := trace s ++ [ESendMessage cs p] |}.

(** The promise of request [id] has settled: its activation leaves the
    table before it runs. *)
Definition settled (id : nat) (s : state) : state :=
  {| isOpen := isOpen s; input := input s; messages := messages s;
     isLoading := isLoading s; chatSession := chatSession s;
     memo := memo s; exiting := exiting s;
     inflight := delete id (inflight s);
     next_request := next_request s;
     trace := trace s |}.

(** Runs a procedure up to its end or its next suspension. An exception
    that reaches the top is a rejection nobody handles. *)
Fixpoint run (p : proc) (s : state) : state :=
  match p with
  | Return => s
  | Throw e => emit (EUnhandledRejection e) s
  | Do a k => run k (perform a s)
  | Await cs m k => suspend cs m k s
  end.

(** Lines 60-65: the initial values of the [useState] cells, once the
    first render has its session [cs]. *)
Definition initial (cs : option chat) (t : list effect) : state :=
  {| isOpen := false; input := []; messages := [greeting];
     isLoading := false; chatSession := cs;
     memo := Some (cs, []); exiting := None;
     inflight := ∅; next_request := 0%nat; trace := t |}.

(** Before the first render: the cells hold their initial values and the
    hook keeps nothing. *)
Definition unmounted : state :=
  {| isOpen := false; input := []; messages := [greeting];
     isLoading := false; chatSession := None;
     memo := None; exiting := None;
     inflight := ∅; next_request := 0%nat; trace := [] |}.

(** One run of the component function: line 71 with its dependencies of
    line 84. An exception of the calculation would leave the render. *)
Definition render (env : environment) (s : state) : completion state :=
  match useMemo (Factory.chatSession env) [] (memo s) with
  | (Normal (cs, kept), t) =>
      Normal {| isOpen := isOpen s; input := input s; messages := messages s;
                isLoading := isLoading s; chatSession := cs;
                memo := kept; exiting := exiting s;
                inflight := inflight s; next_request := next_request s;
                trace := trace s ++ t |}
  | (Abrupt e, _) => Abrupt e
  end.

(** First render: lines 60-84. *)
Definition mount (env : environment) : completion state :=
  render env unmounted.

(** Line 214: the [disabled] attribute of the send button, from the
    [input] and [isLoading] of a render. *)
Definition disabled_attr (input : jsstring) (isLoading : bool) : bool :=
  negb (truthy (trim input)) || isLoading.

Definition send_disabled (s : state) : bool :=
  disabled_attr (input s) (isLoading s).

(** The render whose chat window is on screen: the current one while
    [isOpen] (line 142), the kept one while the window closes (lines
    141-148), none afterwards. *)
Definition rendered (s : state) : option (jsstring * bool) :=
  if isOpen s then Some (input s, isLoading s) else exiting s.

Definition set_exiting (r : option (jsstring * bool)) (s : state) : state :=
  {| isOpen := isOpen s; input := input s; messages := messages s;
     isLoading := isLoading s; chatSession := chatSession s;
     memo := memo s; exiting := r;
     inflight := inflight s; next_request := next_request s;
     trace := trace s |}.

Inductive event :=
| ClickOpen
| ClickClose
| ExitComplete
| Change (value : jsstring)
| KeyDown (key : jsstring) (shiftKey : bool)
| ClickSend
| Render (env : environment)
| Settle (id : nat) (o : outcome).

(** The text field and the buttons of the chat window take events while
    the window is on screen, with the handlers and the [disabled]
    attribute of the render it shows: those of the current state while
    open, those of the last open render while it closes, until the exit
    animation is complete. A disabled button receives no click. React may
    run the component function again at any time; a promise settles
    once. *)
Definition step (e : event) (s : state) : state :=
  match e with
  | ClickOpen => set_exiting None (run (setIsOpen true ;> Return) s)
  | ClickClose =>
      match rendered s with
      | Some shown => set_exiting (Some shown) (run (setIsOpen false ;> Return) s)
      | None => s
      end
  | ExitComplete => if isOpen s then s else set_exiting None s
  | Change value =>
      match rendered s with
      | Some _ => run (setInput value ;> Return) s
      | None => s
      end
  | KeyDown key shiftKey =>
      match rendered s with
      | Some (input, _) => run (handleKeyPress key shiftKey input (chatSession s)) s
      | None => s
      end
  | ClickSend =>
      match rendered s with
      | Some (input, isLoading) =>
          if disabled_attr input isLoading then s
          else run (handleSend input (chatSession s)) s
      | None => s
      end
  | Render env =>
      match render env s with
      | Normal s' => s'
      | Abrupt _ => s
      end
  | Settle id o =>
      match inflight s !! id with
      | Some k => run (k o) (settled id s)
      | None => s
      end
  end.

Definition steps (evs : list event) (s : state) : state :=
  fold_left (fun s e => step e s) evs s.

Inductive reachable : state -> Prop :=
| reachable_mount env s : mount env = Normal s -> reachable s
| reachable_step e s : reachable s -> reachable (step e s).

(** ** Observations *)

Definition is_request (e : effect) : bool :=
  match e with ESendMessage _ _ => true | _ => false end.

(** The calls of [sendMessage] made so far, oldest first. *)
Definition requests (s : state) : list effect := filter is_request (trace s).

(** The calls that build the client and the chat session. *)
Definition is_setup (e : effect) : bool :=
  match e with EConstruct _ | EChatsCreate _ _ => true | _ => false end.

(** Lines 74-79: the argument of [ai.chats.create]. *)
Definition chat_parameters : CreateChatParameters :=
  {| create_model := str "gemini-3-flash-preview";
     config := {| systemInstruction := SYSTEM_INSTRUCTION |} |}.

(** The factory of lines 71-84 ends in its [catch] block. *)
Definition construction_fails (env : environment) : bool :=
  match new_GoogleGenerativeAI env {| apiKey := API_KEY env |} with
  | Abrupt _ => true
  | Normal ai =>
      match chats_create env ai chat_parameters with
      | Abrupt _ => true
      | Normal _ => false
      end
  end.

Definition is_rejection (e : effect) : bool :=
  match e with EUnhandledRejection _ => true | _ => false end.

(** Line 95 lets the call through. *)
Definition accepted (s : state) : bool :=
  truthy (trim (input s)) && bool_decide (is_Some (chatSession s)).

(** What an activation parked by [handleSend] does when it is resumed. *)
Definition handleSend_resume (o : outcome) : proc :=
  try_catch_finally (awaited handleSend_try o) handleSend_catch handleSend_finally.

(** ** Two gateways to run the component against *)

Definition env_ok : environment :=
  {| API_KEY := Some (str "k");
     new_GoogleGenerativeAI := fun _ => Normal (Client 0);
     chats_create := fun _ _ => Normal (Chat 0) |}.

Definition env_no_key : environment :=
  {| API_KEY := None;
     new_GoogleGenerativeAI := fun o =>
       match apiKey o with
       | Some _ => Normal (Client 0)
       | None => Abrupt (Error (str "API key required"))
       end;
     chats_create := fun _ _ => Normal (Chat 0) |}.

Definition Enter : jsstring := str "Enter".

(** The instance mounted on [env_ok]. *)
Definition s_ok : state :=
  initial (Some (Chat 0))
    [EConstruct {| apiKey := Some (str "k") |};
     EChatsCreate (Client 0) chat_parameters].

(** The window is open and a question is typed. *)
Definition s_typed : state :=
  steps [ClickOpen; Change (str " What is the F1 score? ")] s_ok.

(** The window is open and only white space is typed. *)
Definition s_blank : state :=
  steps [ClickOpen; Change ([0x20; 0x09; 0xA0; 0x3000] : jsstring)] s_ok.

(** A first message has been sent and its request has not settled. *)
Definition s_pending : state :=
  steps [ClickOpen; Change (str "a"); KeyDown Enter false] s_ok.

(** ** Vocabulary of the properties *)

(** Only white space and line terminators. *)
Definition blank (s : jsstring) : bool := forallb is_space s.

(** The state that an accepted call of a [handleSend] made from [draft]
    leaves behind at its suspension. *)
Definition sending_as (cs : chat) (draft : jsstring) (s : state) : state :=
  let m := {| role := user; text := trim draft |} in
  {| isOpen := isOpen s; input := []; messages := messages s ++ [m];
     isLoading := true; chatSession := chatSession s;
     memo := memo s; exiting := exiting s;
     inflight := <[next_request s := handleSend_resume]> (inflight s);
     next_request := S (next_request s);
     trace := trace s ++ [ESetInput []] ++ [ESetMessages (messages s ++ [m])]
                ++ [ESetIsLoading true]
                ++ [ESendMessage cs {| message := trim draft |}] |}.

(** The same for the [handleSend] of the current render. *)
Definition sending (cs : chat) (s : state) : state := sending_as cs (input s) s.

(** The assistant turn that a settlement produces. *)
Definition reply (o : outcome) : Message :=
  match o with
  | Fulfilled result =>
      {| role := model;
         text := or_else (response_text result) (str "I couldn't generate a response.") |}
  | Rejected _ =>
      {| role := model;
         text := str "Sorry, I encountered an error connecting to the AI service." |}
  end.

Definition reply_effects (o : outcome) (ms : list Message) : list effect :=
  match o with
  | Fulfilled _ => [ESetMessages ms; ESetIsLoading false]
  | Rejected e =>
      [EConsoleError (str "Chat Error:") e; ESetMessages ms; ESetIsLoading false]
  end.

Definition replied (o : outcome) (s : state) : state :=
  {| isOpen := isOpen s; input := input s;
     messages := messages s ++ [reply o];
     isLoading := false; chatSession := chatSession s;
     memo := memo s; exiting := exiting s;
     inflight := inflight s; next_request := next_request s;
     trace := trace s ++ reply_effects o (messages s ++ [reply o]) |}.

(** Every parked activation is the continuation of [handleSend]. *)
Definition parked (s : state) : Prop :=
  forall id k, inflight s !! id = Some k -> k = handleSend_resume.

(** The hook keeps the session of the last render, for the dependencies
    of line 84. *)
Definition memoised (s : state) : Prop := memo s = Some (chatSession s, []).

(** What the handlers other than [handleSend] emit. *)
Definition ui_effect (e : effect) : bool :=
  match e with
  | EPreventDefault | ESetIsOpen _ | ESetInput _ => true
  | _ => false
  end.

(** A step that touches at most the window, the draft and the event. *)
Record ui_step (s s' : state) : Prop := {
  ui_messages : messages s' = messages s;
  ui_isLoading : isLoading s' = isLoading s;
  ui_chatSession : chatSession s' = chatSession s;
  ui_memo : memo s' = memo s;
  ui_inflight : inflight s' = inflight s;
  ui_next_request : next_request s' = next_request s;
  ui_trace : exists t, trace s' = trace s ++ t /\ forallb ui_effect t = true
}.

(** The three kinds of step: on the window only; an accepted call of a
    [handleSend] made from some non-blank draft, after an optional
    [preventDefault]; the settlement of a request in flight. *)
Inductive transition (s : state) : state -> Prop :=
| t_ui s' : ui_step s s' -> transition s s'
| t_send s1 cs draft :
    ui_step s s1 -> chatSession s = Some cs -> truthy (trim draft) = true ->
    transition s (sending_as cs draft s1)
| t_settle id o :
    inflight s !! id = Some handleSend_resume ->
    transition s (replied o (settled id s)).

(** What no step ever does: it keeps the session handle, only appends to
    the transcript, constructs nothing, lets no rejection through, and
    sends only the text of a user turn through the current handle. *)
Record frame (s s' : state) : Prop := {
  frame_session : chatSession s' = chatSession s;
  frame_messages : exists added, messages s' = messages s ++ added;
  frame_trace : exists t,
    trace s' = trace s ++ t /\
    filter is_setup t = [] /\
    filter is_rejection t = [] /\
    forall cs p, ESendMessage cs p ∈ t ->
      chatSession s = Some cs /\
      {| role := user; text := message p |} ∈ messages s'
}.

(** Some settlement of the gateway makes the procedure end in an
    exception. *)
Inductive throws : proc -> Prop :=
| throws_here e : throws (Throw e)
| throws_do a k : throws k -> throws (Do a k)
| throws_await cs p k o : throws (k o) -> throws (Await cs p k).

(** An event that neither submits a message nor settles request [id]. *)
Definition quiet (id : nat) (e : event) : bool :=
  match e with
  | ClickOpen | ClickClose | ExitComplete | Change _ | Render _ => true
  | KeyDown key shiftKey => negb (jsstring_eqb key (str "Enter") && negb shiftKey)
  | ClickSend => false
  | Settle j _ => negb (bool_decide (j = id))
  end.


(** ** More observations of the assistant *)

Definition is_user (m : Message) : bool :=
  match role m with user => true | model => false end.

(** The texts of the user turns of the transcript, oldest first. *)
Definition user_texts (s : state) : list jsstring :=
  text <$> filter is_user (messages s).

Definition payload (e : effect) : option jsstring :=
  match e with
  | ESendMessage _ p => Some (message p)
  | _ => None
  end.

(** The messages handed to [sendMessage] so far, oldest first. *)
Definition payloads (s : state) : list jsstring := omap payload (trace s).

(** Neither the first nor the last code unit is white space; in
    particular the string is not empty. *)
Definition trimmed (t : jsstring) : Prop :=
  exists c c', head t = Some c /\ last t = Some c' /\
               is_space c = false /\ is_space c' = false.

(** The first code unit, if any, is not white space. *)
Definition clean (t : jsstring) : bool :=
  match t with
  | [] => true
  | c :: _ => negb (is_space c)
  end.

(** The chat window is on screen for its exit animation only. *)
Definition closing (s : state) : bool :=
  negb (isOpen s) && bool_decide (is_Some (exiting s)).

(** Enter (without Shift) is never pressed while the pending flag is set,
    and nothing is submitted, by Enter or by the button, on a window that
    is closing. *)
Fixpoint polite (evs : list event) (s : state) : bool :=
  match evs with
  | [] => true
  | e :: rest =>
      match e with
      | KeyDown key shiftKey =>
          negb (jsstring_eqb key (str "Enter") && negb shiftKey
                && (isLoading s || closing s))
      | ClickSend => negb (closing s)
      | _ => true
      end && polite rest (step e s)
  end.

(** Nothing in flight and the flag clear, or one request in flight and
    the flag set. *)
Definition one_at_a_time (s : state) : Prop :=
  (isLoading s = false /\ inflight s = ∅) \/
  (isLoading s = true /\ exists id, inflight s = {[ id := handleSend_resume ]}).

(** Assistant turns at even positions, user turns at odd ones, and a user
    turn last exactly while the pending flag is set. *)
Definition in_turn (s : state) : Prop :=
  (forall i m, messages s !! i = Some m ->
     role m = if Nat.even i then model else user) /\
  Nat.even (length (messages s)) = isLoading s.

(** ** Numbers of the page and of the scene

    JavaScript numbers are doubles. The two components below only combine
    them with the operations of this interface, which is left abstract;
    [fround] is the rounding of a store into a [Float32Array]. *)
Class Float64 (num : Type) := {
  of_Z : Z -> num;
  of_decimal : Z -> nat -> num;
  PI : num;
  fadd : num -> num -> num;
  fsub : num -> num -> num;
  fmul : num -> num -> num;
  fgt : num -> num -> bool;
  fsin : num -> num;
  fcos : num -> num;
  facos : num -> num;
  fround : num -> num
}.

(** An instance to run the definitions on: integers, with stand-ins for
    the transcendental functions. *)
#[global] Instance Z_numbers : Float64 Z := {|
  of_Z := fun z => z;
  of_decimal := fun m e => (m / 10 ^ Z.of_nat e)%Z;
  PI := 3%Z;
  fadd := Z.add; fsub := Z.sub; fmul := Z.mul;
  fgt := fun a b => (b <? a)%Z;
  fsin := fun z => z; fcos := fun z => (z + 1)%Z; facos := fun z => (z + 2)%Z;
  fround := fun z => z
|}.

(** ** The page: [Website] *)

(** [DOMTokenList.add] and [DOMTokenList.remove] with one token: the list
    is an ordered set, a new token goes to its end. *)
Definition classList_add (token : jsstring) (l : list jsstring) : list jsstring :=
  if bool_decide (token ∈ l) then l else l ++ [token].

Definition classList_remove (token : jsstring) (l : list jsstring) : list jsstring :=
  filter (fun t => t <> token) l.

Module Website.
Section Website.
Context {num : Type} `{Float64 num}.

Inductive call :=
| PreventDefault
| ScrollTo (top : num) (behavior : jsstring).

(** The three [useState] cells of lines 268-270, the class list of
    [document.documentElement], and the calls made on the event and on
    [window]. *)
Record page := {
  scrolled : bool;
  menuOpen : bool;
  isDark : bool;
  classList : list jsstring;
  calls : list call
}.

Definition setScrolled (v : bool) (s : page) : page :=
  {| scrolled := v; menuOpen := menuOpen s; isDark := isDark s;
     classList := classList s; calls := calls s |}.

Definition setMenuOpen (v : bool) (s : page) : page :=
  {| scrolled := scrolled s; menuOpen := v; isDark := isDark s;
     classList := classList s; calls := calls s |}.

Definition setIsDark (v : bool) (s : page) : page :=
  {| scrolled := scrolled s; menuOpen := menuOpen s; isDark := v;
     classList := classList s; calls := calls s |}.

Definition setClassList (l : list jsstring) (s : page) : page :=
  {| scrolled := scrolled s; menuOpen := menuOpen s; isDark := isDark s;
     classList := l; calls := calls s |}.

Definition called (c : call) (s : page) : page :=
  {| scrolled := scrolled s; menuOpen := menuOpen s; isDark := isDark s;
     classList := classList s; calls := calls s ++ [c] |}.

(** Line 273, on the [window.scrollY] of the moment. *)
Definition handleScroll (scrollY : num) (s : page) : page :=
  setScrolled (fgt scrollY (of_Z 50)) s.

(** Lines 279-285: the body of the effect whose dependency is [isDark]. *)
Definition dark_effect (s : page) : page :=
  if isDark s
  then setClassList (classList_add (str "dark") (classList s)) s
  else setClassList (classList_remove (str "dark") (classList s)) s.

(** Lines 287-302. [getElementById] gives, for an element that exists,
    the [top] of its bounding rectangle. *)
Definition scrollToSection (id : jsstring)
    (getElementById : jsstring -> option num) (pageYOffset : num)
    (s : page) : page :=
  let s := called PreventDefault s in
  let s := setMenuOpen false s in
  match getElementById id with
  | Some elementPosition =>
      let headerOffset := of_Z 100 in
      let offsetPosition := fsub (fadd elementPosition pageYOffset) headerOffset in
      called (ScrollTo offsetPosition (str "smooth")) s
  | None => s
  end.

Inductive page_event :=
| Scroll (scrollY : num)
| ClickLogo
| ClickNav (id : jsstring) (getElementById : jsstring -> option num) (pageYOffset : num)
| ClickDark
| ClickMenu
| ClickGitHub.

(** First render and its effects: the scroll listener is registered and
    the dark-mode effect runs on [isDark = false]. *)
Definition page_mount (classes : list jsstring) : page :=
  dark_effect {| scrolled := false; menuOpen := false; isDark := false;
                 classList := classes; calls := [] |}.

(** The handlers of lines 309, 319-322, 327, 346, 351, 361-364, 369 and
    402. The dark-mode effect runs after a commit that changed [isDark];
    the GitHub link with a handler is in the mobile menu, rendered only
    while [menuOpen]. *)
Definition page_step (e : page_event) (s : page) : page :=
  match e with
  | Scroll scrollY => handleScroll scrollY s
  | ClickLogo => called (ScrollTo (of_Z 0) (str "smooth")) s
  | ClickNav id getElementById pageYOffset =>
      scrollToSection id getElementById pageYOffset s
  | ClickDark => dark_effect (setIsDark (negb (isDark s)) s)
  | ClickMenu => setMenuOpen (negb (menuOpen s)) s
  | ClickGitHub => if menuOpen s then setMenuOpen false s else s
  end.

Definition page_steps (evs : list page_event) (s : page) : page :=
  fold_left (fun s e => page_step e s) evs s.

(** What the dark-mode effect keeps true, relative to the classes the
    document had before the page was mounted. *)
Definition dark_in_step (classes : list jsstring) (s : page) : Prop :=
  (str "dark" ∈ classList s <-> isDark s = true) /\
  classList_remove (str "dark") (classList s)
    = classList_remove (str "dark") classes /\
  (NoDup classes -> NoDup (classList s)).

End Website.
End Website.

(** ** The scene: the point cloud of [SatellitePoints] *)

Module QuantumScene.
Section QuantumScene.
Context {num : Type} `{Float64 num}.

(** [for (let i = 0; i < count; i++) body] *)
Definition for_loop {S : Type} (count : nat) (body : nat -> S -> S) (s : S) : S :=
  fold_left (fun s i => body i s) (List.seq 0 count) s.

(** The array being filled and the number of calls of [Math.random] made
    so far. *)
Record cloud := { p : list num; drawn : nat }.

(** Lines 57-62. [random n] is what the [n]-th call of [Math.random]
    returns. A store outside the array would be ignored. *)
Definition point (random : nat -> num) (i : nat) (s : cloud) : cloud :=
  let theta := fmul (fmul (random (drawn s)) PI) (of_Z 2) in
  let phi := facos (fsub (fmul (random (drawn s + 1)%nat) (of_Z 2)) (of_Z 1)) in
  let r := fadd (of_Z 3) (fmul (random (drawn s + 2)%nat) (of_decimal 5 1)) in
  let p := <[(i * 3)%nat := fround (fmul (fmul r (fsin phi)) (fcos theta))]> (p s) in
  let p := <[(i * 3 + 1)%nat := fround (fmul (fmul r (fsin phi)) (fsin theta))]> p in
  let p := <[(i * 3 + 2)%nat := fround (fmul r (fcos phi))]> p in
  {| p := p; drawn := (drawn s + 3)%nat |}.

(** Lines 54-65: the function given to [useMemo]; a new [Float32Array] is
    filled with zeros. *)
Definition points (random : nat -> num) (count : nat) : cloud :=
  let p := replicate (count * 3) (of_Z 0) in
  for_loop count (point random) {| p := p; drawn := 0 |}.

End QuantumScene.
End QuantumScene.

(** ** Sample runs of the page and of the scene *)

(** Two questions, the second one typed while the first is pending and
    sent with the button once the answer is there and the window has been
    closed and opened again. *)
Definition polite_run : list event :=
  [ClickOpen; Change (str "a"); KeyDown Enter false; Change (str "b"); ClickSend;
   Settle 0 (Fulfilled {| response_text := Some (str "A") |});
   ClickClose; ExitComplete; Render env_no_key; ClickOpen; ClickSend].

(** A question typed, the window closed, and the send button of the
    closing window clicked twice. *)
Definition closing_run : list event :=
  [ClickOpen; Change (str "hello"); ClickClose; ClickSend; ClickSend].

(** A document that arrives with the class "dark", and a visitor who
    scrolls, toggles the theme three times and opens the menu. *)
Definition page_run : list (@Website.page_event Z) :=
  [Website.ClickDark; Website.Scroll 60%Z; Website.ClickDark; Website.ClickMenu;
   Website.ClickDark].

(** A stand-in for [Math.random]: the [n]-th call returns [n]. *)
Definition counting_random (n : nat) : Z := Z.of_nat n.

(** * Properties *)

(** ** [trim] *)

Lemma trimStart_nil (s : jsstring) : trimStart s = [] <-> blank s = true.
Proof.
  induction s as [|c r IH]; simpl; [done|].
  destruct (is_space c); simpl; [exact IH|]. split; discriminate.
Qed.

Lemma blank_trimStart (s : jsstring) : blank (trimStart s) = blank s.
Proof.
  induction s as [|c r IH]; simpl; [done|].
  destruct (is_space c) eqn:E; simpl; [exact IH|]. by rewrite E.
Qed.

Lemma blank_app (s t : jsstring) : blank (s ++ t) = blank s && blank t.
Proof. apply forallb_app. Qed.

Lemma blank_reverse (s : jsstring) : blank (reverse s) = blank s.
Proof.
  induction s as [|c r IH]; simpl; [done|].
  rewrite reverse_cons, blank_app, IH. simpl.
  rewrite andb_true_r. apply andb_comm.
Qed.

Lemma reverse_nil_inv {A} (l : list A) : reverse l = [] -> l = [].
Proof.
  intros H. apply (f_equal reverse) in H.
  by rewrite reverse_involutive in H.
Qed.

Lemma trim_nil (s : jsstring) : trim s = [] <-> blank s = true.
Proof.
  unfold trim, trimEnd. split.
  - intros H. apply reverse_nil_inv in H. apply trimStart_nil in H.
    by rewrite blank_reverse, blank_trimStart in H.
  - intros H.
    assert (trimStart (reverse (trimStart s)) = []) as ->; [|done].
    apply trimStart_nil. by rewrite blank_reverse, blank_trimStart.
Qed.

Lemma truthy_false (s : jsstring) : truthy s = false <-> s = [].
Proof. destruct s; simpl; split; congruence. Qed.

Lemma truthy_trim_blank (s : jsstring) : truthy (trim s) = negb (blank s).
Proof.
  destruct (blank s) eqn:E; simpl.
  - apply truthy_false, trim_nil, E.
  - destruct (truthy (trim s)) eqn:T; [done|].
    apply truthy_false, trim_nil in T. congruence.
Qed.

(** ** The shape of [handleSend] on each side of its guard *)

Lemma handleSend_accepts (i : jsstring) (cs : chat) :
  truthy (trim i) = true ->
  handleSend i (Some cs) =
    (setInput [] ;>
     setMessages (fun prev => prev ++ [{| role := user; text := trim i |}]) ;>
     setIsLoading true ;>
     Await cs {| message := trim i |} handleSend_resume).
Proof. intros H. unfold handleSend. rewrite H. reflexivity. Qed.

Lemma handleSend_blank (i : jsstring) (c : option chat) :
  truthy (trim i) = false -> handleSend i c = Return.
Proof. intros H. unfold handleSend. by rewrite H. Qed.

Lemma handleSend_disabled (i : jsstring) : handleSend i None = Return.
Proof. unfold handleSend. by rewrite orb_true_r. Qed.

Lemma handleSend_rejects (s : state) :
  accepted s = false -> handleSend (input s) (chatSession s) = Return.
Proof.
  unfold accepted. intros H. apply andb_false_iff in H as [H|H].
  - by apply handleSend_blank.
  - destruct (chatSession s) as [cs|]; [|apply handleSend_disabled].
    rewrite bool_decide_eq_false in H. destruct H. by eexists.
Qed.

Lemma accepted_spec (s : state) :
  accepted s = true <->
  truthy (trim (input s)) = true /\ exists cs, chatSession s = Some cs.
Proof.
  unfold accepted. rewrite andb_true_iff, bool_decide_eq_true.
  unfold is_Some. tauto.
Qed.

Lemma run_handleSend_as (s : state) (cs : chat) (draft : jsstring) :
  truthy (trim draft) = true ->
  run (handleSend draft (Some cs)) s = sending_as cs draft s.
Proof.
  intros Ht. rewrite (handleSend_accepts _ _ Ht).
  unfold sending_as. simpl. unfold suspend, emit. simpl.
  by rewrite <- !app_assoc.
Qed.

Lemma run_handleSend_accepted (s : state) (cs : chat) :
  chatSession s = Some cs -> truthy (trim (input s)) = true ->
  run (handleSend (input s) (chatSession s)) s = sending cs s.
Proof. intros Hc Ht. rewrite Hc. by apply run_handleSend_as. Qed.

Lemma run_handleSend_rejected (s : state) :
  accepted s = false -> run (handleSend (input s) (chatSession s)) s = s.
Proof. intros H. by rewrite (handleSend_rejects _ H). Qed.

Lemma run_handleSend_resume (o : outcome) (s : state) :
  run (handleSend_resume o) s = replied o s.
Proof.
  destruct o as [r|e]; unfold replied; simpl; unfold emit; simpl;
    by rewrite <- ?app_assoc.
Qed.

(** A [handleSend] made from any draft and session either returns at
    once or is an accepted call. *)
Lemma run_handleSend_cases (draft : jsstring) (c : option chat) (s : state) :
  run (handleSend draft c) s = s \/
  exists cs, c = Some cs /\ truthy (trim draft) = true /\
             run (handleSend draft c) s = sending_as cs draft s.
Proof.
  destruct c as [cs|]; [|left; by rewrite handleSend_disabled].
  destruct (truthy (trim draft)) eqn:Ht.
  - right. exists cs. auto using run_handleSend_as.
  - left. by rewrite (handleSend_blank _ _ Ht).
Qed.

Ltac split3 := refine (conj _ (conj _ _)).
Ltac split4 := refine (conj _ (conj _ (conj _ _))).

(** ** One step of the event loop, case by case *)

Lemma ui_step_refl (s : state) : ui_step s s.
Proof. split; try done. exists []. by rewrite app_nil_r. Qed.

Lemma ui_step_trans (s1 s2 s3 : state) : ui_step s1 s2 -> ui_step s2 s3 -> ui_step s1 s3.
Proof.
  intros [A1 A2 A3 A4 A5 A6 (t1 & A7 & A8)] [B1 B2 B3 B4 B5 B6 (t2 & B7 & B8)].
  split; try congruence.
  exists (t1 ++ t2). split; [by rewrite B7, A7, app_assoc|].
  by rewrite forallb_app, A8, B8.
Qed.

Lemma ui_step_emit (e : effect) (s : state) :
  ui_effect e = true -> ui_step s (emit e s).
Proof.
  intros He. split; try done. exists [e]. split; [done|]. simpl. by rewrite He.
Qed.

Lemma ui_step_setIsOpen (v : bool) (s : state) : ui_step s (perform (setIsOpen v) s).
Proof. split; try done. by exists [ESetIsOpen v]. Qed.

Lemma ui_step_setInput (v : jsstring) (s : state) : ui_step s (perform (setInput v) s).
Proof. split; try done. by exists [ESetInput v]. Qed.

Lemma ui_step_set_exiting (r : option (jsstring * bool)) (s : state) :
  ui_step s (set_exiting r s).
Proof. split; try done. exists []. by rewrite app_nil_r. Qed.

(** With the session memoised for the dependencies of line 84, a render
    calculates nothing, whatever the environment has become. *)
Lemma render_memoised (env : environment) (s : state) :
  memoised s -> exists s', render env s = Normal s' /\ ui_step s s'.
Proof.
  unfold memoised. intros Hm. unfold render. rewrite Hm. simpl.
  eexists. split; [reflexivity|].
  split; try done. exists []. by rewrite app_nil_r.
Qed.

Lemma step_transition (e : event) (s : state) :
  parked s -> memoised s -> transition s (step e s).
Proof.
  intros Hp Hm.
  assert (forall draft s1, ui_step s s1 ->
            transition s (run (handleSend draft (chatSession s)) s1)) as Hsend.
  { intros draft s1 Hui.
    destruct (run_handleSend_cases draft (chatSession s) s1)
      as [->|(cs & Hc & Ht & ->)]; [by apply t_ui|by apply t_send]. }
  destruct e as [| | |v|key shift| |env|id o]; unfold step.
  - apply t_ui. eapply ui_step_trans;
      [apply (ui_step_setIsOpen true)|apply ui_step_set_exiting].
  - destruct (rendered s); [|apply t_ui, ui_step_refl].
    apply t_ui. eapply ui_step_trans;
      [apply (ui_step_setIsOpen false)|apply ui_step_set_exiting].
  - apply t_ui. destruct (isOpen s); [apply ui_step_refl|apply ui_step_set_exiting].
  - apply t_ui. destruct (rendered s); [apply ui_step_setInput|apply ui_step_refl].
  - destruct (rendered s) as [[draft shown]|]; [|apply t_ui, ui_step_refl].
    unfold handleKeyPress.
    destruct (jsstring_eqb key (str "Enter") && negb shift);
      [|apply t_ui, ui_step_refl].
    apply (Hsend draft (emit EPreventDefault s)). by apply ui_step_emit.
  - destruct (rendered s) as [[draft shown]|]; [|apply t_ui, ui_step_refl].
    destruct (disabled_attr draft shown); [apply t_ui, ui_step_refl|].
    apply Hsend, ui_step_refl.
  - destruct (render_memoised env s Hm) as (s' & -> & Hui). by apply t_ui.
  - destruct (inflight s !! id) as [k|] eqn:E; [|apply t_ui, ui_step_refl].
    pose proof (Hp _ _ E) as ->. rewrite run_handleSend_resume. by apply t_settle.
Qed.

Lemma transition_parked (s s' : state) :
  transition s s' -> parked s -> parked s'.
Proof.
  intros T Hp id' k. destruct T as [s' Hui|s1 cs draft Hui _ _|id o _]; simpl.
  - rewrite (ui_inflight _ _ Hui). apply Hp.
  - rewrite (ui_inflight _ _ Hui).
    intros L. apply lookup_insert_Some in L as [[_ <-]|[_ L]]; eauto.
  - intros L. apply lookup_delete_Some in L as [_ L]. eauto.
Qed.

Lemma transition_memoised (s s' : state) :
  transition s s' -> memoised s -> memoised s'.
Proof.
  unfold memoised. intros T Hm.
  destruct T as [s' Hui|s1 cs draft Hui _ _|id o _]; simpl; try done.
  - by rewrite (ui_memo _ _ Hui), (ui_chatSession _ _ Hui).
  - by rewrite (ui_memo _ _ Hui), (ui_chatSession _ _ Hui).
Qed.

Lemma mount_normal (env : environment) :
  exists cs t, Factory.chatSession env = (Normal cs, t) /\
    mount env = Normal (initial cs t).
Proof.
  unfold mount, render, unmounted, useMemo, Factory.chatSession,
    Factory.construct, Factory.create, Factory.console_error, sync_call.
  destruct (new_GoogleGenerativeAI env _) as [ai|e]; simpl;
    [destruct (chats_create env ai _) as [cs|e]; simpl|]; eauto.
Qed.

Lemma mount_parked (env : environment) (s : state) :
  mount env = Normal s -> parked s.
Proof.
  destruct (mount_normal env) as (cs & t & _ & ->).
  intros [= <-] id k; simpl. by rewrite lookup_empty.
Qed.

Lemma mount_memoised (env : environment) (s : state) :
  mount env = Normal s -> memoised s.
Proof. destruct (mount_normal env) as (cs & t & _ & ->). by intros [= <-]. Qed.

Lemma step_parked (e : event) (s : state) :
  parked s -> memoised s -> parked (step e s).
Proof. intros Hp Hm. eapply transition_parked; eauto using step_transition. Qed.

Lemma step_memoised (e : event) (s : state) :
  parked s -> memoised s -> memoised (step e s).
Proof. intros Hp Hm. eapply transition_memoised; eauto using step_transition. Qed.

Lemma reachable_parked (s : state) : reachable s -> parked s /\ memoised s.
Proof.
  induction 1 as [env s Hm|e s Hr [Hp Hm]];
    eauto using mount_parked, mount_memoised, step_parked, step_memoised.
Qed.

Lemma steps_reachable (evs : list event) (s : state) :
  reachable s -> reachable (steps evs s).
Proof.
  revert s. induction evs as [|e evs IH]; intros s H; simpl; [done|].
  apply IH. by constructor.
Qed.

Lemma frame_refl (s : state) : frame s s.
Proof.
  split; [done|exists []; by rewrite app_nil_r|].
  exists []. split4; try done; [by rewrite app_nil_r|].
  intros cs p H. by apply elem_of_nil in H.
Qed.

Lemma frame_trans (s1 s2 s3 : state) : frame s1 s2 -> frame s2 s3 -> frame s1 s3.
Proof.
  intros [Hc1 [a1 Hm1] (t1 & Ht1 & Hk1 & Hr1 & Hs1)]
         [Hc2 [a2 Hm2] (t2 & Ht2 & Hk2 & Hr2 & Hs2)].
  split.
  - congruence.
  - exists (a1 ++ a2). by rewrite Hm2, Hm1, app_assoc.
  - exists (t1 ++ t2). split4.
    + by rewrite Ht2, Ht1, app_assoc.
    + by rewrite filter_app, Hk1, Hk2.
    + by rewrite filter_app, Hr1, Hr2.
    + intros cs p H. apply elem_of_app in H as [H|H].
      * destruct (Hs1 _ _ H) as [? Hin]. split; [done|].
        rewrite Hm2. apply elem_of_app. by left.
      * destruct (Hs2 _ _ H) as [? Hin]. split; [congruence|done].
Qed.

Lemma ui_effects_benign (t : list effect) :
  forallb ui_effect t = true ->
  filter is_setup t = [] /\ filter is_rejection t = [] /\
  filter is_request t = [] /\ omap payload t = [].
Proof.
  induction t as [|e t IH]; [done|]. simpl. intros H.
  apply andb_true_iff in H as [He Ht]. destruct (IH Ht) as (H1 & H2 & H3 & H4).
  destruct e; try discriminate; rewrite ?(filter_cons_False _ _ t) by (by intros ?);
    simpl; by rewrite ?H4.
Qed.

Lemma ui_effects_send_nothing (t : list effect) (cs : chat) (p : SendMessageParameters) :
  forallb ui_effect t = true -> ESendMessage cs p ∉ t.
Proof.
  intros Ht Hin. apply ui_effects_benign in Ht as (_ & _ & Hq & _).
  assert (ESendMessage cs p ∈ filter is_request t) as Hin'
    by (apply list_elem_of_filter; split; [exact I|done]).
  rewrite Hq in Hin'. by apply elem_of_nil in Hin'.
Qed.

Lemma transition_frame (s s' : state) : transition s s' -> frame s s'.
Proof.
  intros T. destruct T as [s' Hui|s1 cs draft Hui Hc Ht|id o Hl].
  - destruct Hui as [H1 _ H3 _ _ _ (t & H7 & H8)].
    pose proof (ui_effects_benign t H8) as (Hk & Hr & _ & _).
    split; [done|exists []; by rewrite app_nil_r|].
    exists t. split4; try done.
    intros cs p Hin. by apply ui_effects_send_nothing in Hin.
  - destruct Hui as [H1 _ H3 _ _ _ (t & H7 & H8)].
    pose proof (ui_effects_benign t H8) as (Hk & Hr & _ & _).
    split; simpl; [done|rewrite H1; by eexists|].
    exists (t ++ [ESetInput []]
              ++ [ESetMessages (messages s1 ++ [{| role := user; text := trim draft |}])]
              ++ [ESetIsLoading true]
              ++ [ESendMessage cs {| message := trim draft |}]).
    split4.
    + by rewrite H7, <- !app_assoc.
    + by rewrite filter_app, Hk.
    + by rewrite filter_app, Hr.
    + intros cs' p Hin. apply elem_of_app in Hin as [Hin|Hin];
        [by apply ui_effects_send_nothing in Hin|].
      simpl in Hin. rewrite !elem_of_cons, elem_of_nil in Hin.
      destruct Hin as [H|[H|[H|[H|[]]]]]; try discriminate.
      injection H as -> ->. split; [done|]. simpl.
      apply elem_of_app. right. by apply list_elem_of_singleton.
  - split; simpl; [done|by eexists|].
    eexists. split; [reflexivity|].
    destruct o as [r|e]; simpl; split3; try done;
      intros cs p H; rewrite !elem_of_cons, elem_of_nil in H;
      repeat (destruct H as [H|H]; try discriminate); destruct H.
Qed.

Lemma step_frame (e : event) (s : state) :
  parked s -> memoised s -> frame s (step e s).
Proof. intros Hp Hm. by apply transition_frame, step_transition. Qed.

Lemma steps_frame (evs : list event) (s : state) :
  parked s -> memoised s -> frame s (steps evs s).
Proof.
  revert s. induction evs as [|e evs IH]; intros s Hp Hm; simpl.
  - apply frame_refl.
  - eapply frame_trans; [by apply step_frame|].
    apply IH; [by apply step_parked|by apply step_memoised].
Qed.

Lemma requests_emit (e : effect) (s : state) :
  is_request e = false -> requests (emit e s) = requests s.
Proof.
  intros H. unfold requests. simpl. rewrite filter_app.
  destruct e; try discriminate; simpl; by rewrite app_nil_r.
Qed.

Lemma requests_perform (a : action) (s : state) :
  requests (perform a s) = requests s.
Proof.
  unfold requests. destruct a; simpl; rewrite filter_app; simpl;
    by rewrite app_nil_r.
Qed.

Lemma requests_ui_step (s s' : state) : ui_step s s' -> requests s' = requests s.
Proof.
  intros [_ _ _ _ _ _ (t & Ht & Hui)]. unfold requests.
  apply ui_effects_benign in Hui as (_ & _ & Hq & _).
  by rewrite Ht, filter_app, Hq, app_nil_r.
Qed.

Lemma requests_sending_as (cs : chat) (draft : jsstring) (s : state) :
  requests (sending_as cs draft s) =
    requests s ++ [ESendMessage cs {| message := trim draft |}].
Proof. unfold requests. simpl. by rewrite filter_app. Qed.

Lemma requests_sending (cs : chat) (s : state) :
  requests (sending cs s) =
    requests s ++ [ESendMessage cs {| message := trim (input s) |}].
Proof. apply requests_sending_as. Qed.

Lemma requests_replied (o : outcome) (s : state) :
  requests (replied o s) = requests s.
Proof.
  unfold requests. simpl. rewrite filter_app.
  destruct o; simpl; by rewrite app_nil_r.
Qed.

Lemma step_settle_sending (cs : chat) (o : outcome) (s : state) :
  step (Settle (next_request s) o) (sending cs s) =
    replied o (settled (next_request s) (sending cs s)).
Proof.
  unfold step. simpl. rewrite lookup_insert_eq. apply run_handleSend_resume.
Qed.

(** ** No-op on blank input *)

(** C5. A send whose text is empty or only white space changes nothing:
    [handleSend] returns the state as it got it (transcript, pending flag,
    trace of calls). So do the send button and the Enter key of a chat
    window whose draft is blank, the draft of a window on screen being
    that of the render it shows: the button leaves the state as it is,
    and Enter changes neither the transcript, nor the flag, nor the
    input, nor the requests made or in flight. *)
Theorem blank_send_is_noop (s : state) :
  blank (input s) = true ->
  run (handleSend (input s) (chatSession s)) s = s /\
  ((forall draft shown, rendered s = Some (draft, shown) -> blank draft = true) ->
   step ClickSend s = s /\
   forall shiftKey,
     messages (step (KeyDown Enter shiftKey) s) = messages s /\
     isLoading (step (KeyDown Enter shiftKey) s) = isLoading s /\
     input (step (KeyDown Enter shiftKey) s) = input s /\
     requests (step (KeyDown Enter shiftKey) s) = requests s /\
     inflight (step (KeyDown Enter shiftKey) s) = inflight s).
Proof.
  intros Hb.
  assert (forall draft, blank draft = true -> truthy (trim draft) = false) as Hblank
    by (intros draft H; by rewrite truthy_trim_blank, H).
  split.
  - by rewrite (handleSend_blank _ _ (Hblank _ Hb)).
  - intros Hshown. split.
    + unfold step. destruct (rendered s) as [[draft shown]|] eqn:E; [|done].
      unfold disabled_attr. by rewrite (Hblank draft (Hshown _ _ eq_refl)).
    + intros shiftKey. unfold step, handleKeyPress.
      destruct (rendered s) as [[draft shown]|] eqn:E; [|done].
      destruct (jsstring_eqb Enter (str "Enter") && negb shiftKey); [|done].
      rewrite (handleSend_blank _ _ (Hblank draft (Hshown _ _ eq_refl))).
      change (run (preventDefault ;> Return) s) with (emit EPreventDefault s).
      by rewrite requests_emit.
Qed.

(** ** The input buffer *)

(** C9. [handleSend] clears the input exactly when it accepts the call:
    then [setInput('')] is its first effect, ahead of the transcript
    update, the pending flag and the request; a call it rejects (blank
    input or no session) leaves the whole state as it was; and the part of
    [handleSend] that runs at the settlement does not touch the input. *)
Theorem input_cleared_iff_accepted (s : state) :
  (accepted s = true ->
     input (run (handleSend (input s) (chatSession s)) s) = [] /\
     exists cs ms,
       chatSession s = Some cs /\
       trace (run (handleSend (input s) (chatSession s)) s) =
         trace s ++ [ESetInput []; ESetMessages ms; ESetIsLoading true;
                     ESendMessage cs {| message := trim (input s) |}]) /\
  (accepted s = false ->
     run (handleSend (input s) (chatSession s)) s = s) /\
  (forall o, input (run (handleSend_resume o) s) = input s).
Proof.
  split3.
  - intros Ha. apply accepted_spec in Ha as [Ht [cs Hc]].
    rewrite (run_handleSend_accepted s cs Hc Ht). split; [done|].
    exists cs. eexists. split; [done|]. reflexivity.
  - apply run_handleSend_rejected.
  - intros o. by rewrite run_handleSend_resume.
Qed.

(** ** The request of an accepted send *)

(** C8. An accepted send makes one call of [sendMessage], through the
    session handle; its payload is the trimmed input and nothing else,
    the same text as the user turn appended by that call; the settlement
    of the request makes no further call. *)
Theorem one_request_per_send (s : state) (cs : chat) (o : outcome) :
  chatSession s = Some cs ->
  truthy (trim (input s)) = true ->
  let s1 := run (handleSend (input s) (chatSession s)) s in
  let s2 := step (Settle (next_request s) o) s1 in
  requests s1 = requests s ++ [ESendMessage cs {| message := trim (input s) |}] /\
  messages s1 = messages s ++ [{| role := user; text := trim (input s) |}] /\
  requests s2 = requests s1.
Proof.
  intros Hc Ht s1 s2. subst s2 s1. rewrite (run_handleSend_accepted s cs Hc Ht).
  split3; [apply requests_sending|done|].
  rewrite step_settle_sending, requests_replied. reflexivity.
Qed.

Lemma handleSend_resume_never_throws (o : outcome) : ~ throws (handleSend_resume o).
Proof.
  intros H. destruct o as [r|e]; cbv in H;
    repeat match goal with
           | H : throws (Do _ _) |- _ => inversion H; clear H; subst
           | H : throws Return |- _ => inversion H
           end.
Qed.

Lemma handleSend_never_throws (i : jsstring) (c : option chat) :
  ~ throws (handleSend i c).
Proof.
  destruct c as [cs|]; [|rewrite handleSend_disabled; inversion 1].
  destruct (truthy (trim i)) eqn:Ht;
    [|rewrite (handleSend_blank _ _ Ht); inversion 1].
  rewrite (handleSend_accepts _ _ Ht). intros H.
  inversion H as [|? ? H1|]; subst. inversion H1 as [|? ? H2|]; subst.
  inversion H2 as [|? ? H3|]; subst. inversion H3 as [| |? ? ? o H4]; subst.
  by apply (handleSend_resume_never_throws o).
Qed.

Lemma mount_trace (env : environment) (s : state) :
  mount env = Normal s ->
  filter is_rejection (trace s) = [] /\
  requests s = [] /\
  (filter is_setup (trace s) = [EConstruct {| apiKey := API_KEY env |}] \/
   exists ai,
     filter is_setup (trace s) =
       [EConstruct {| apiKey := API_KEY env |}; EChatsCreate ai chat_parameters]) /\
  (forall cs, chatSession s = Some cs ->
     exists ai,
       filter is_setup (trace s) =
         [EConstruct {| apiKey := API_KEY env |}; EChatsCreate ai chat_parameters] /\
       chats_create env ai chat_parameters = Normal cs).
Proof.
  unfold mount, render, unmounted, useMemo, Factory.chatSession,
    Factory.construct, Factory.create, Factory.console_error, sync_call, requests.
  destruct (new_GoogleGenerativeAI env _) as [ai|e]; simpl;
    [destruct (chats_create env ai _) as [cs|e] eqn:E; simpl|];
    intros [= <-]; simpl; split4; try done.
  - right. by exists ai.
  - intros cs' [= <-]. by exists ai.
  - right. by exists ai.
  - by left.
Qed.

Lemma reachable_no_rejection (s : state) :
  reachable s -> filter is_rejection (trace s) = [].
Proof.
  induction 1 as [env s Hm|e s Hr IH].
  - by apply mount_trace in Hm as [? _].
  - destruct (reachable_parked s Hr) as [Hp Hmemo].
    destruct (step_frame e s Hp Hmemo) as [_ _ (t & -> & _ & Ht & _)].
    by rewrite filter_app, IH, Ht.
Qed.

Lemma step_settle (s : state) (id : nat) (k : outcome -> proc) (o : outcome) :
  parked s -> inflight s !! id = Some k ->
  step (Settle id o) s = replied o (settled id s).
Proof.
  intros Hp Hl. unfold step. rewrite Hl, (Hp _ _ Hl).
  apply run_handleSend_resume.
Qed.

(** ** Settlement *)

(** C4. When the request of a send settles, the pending flag is false
    afterwards, whatever the settlement: a response with text, a response
    with empty or missing text, or a rejection; and the request is no
    longer in flight. *)
Theorem pending_released_on_settle (s : state) (id : nat) (k : outcome -> proc) :
  reachable s -> inflight s !! id = Some k ->
  forall o,
    isLoading (step (Settle id o) s) = false /\
    inflight (step (Settle id o) s) !! id = None.
Proof.
  intros Hr Hl o. rewrite (step_settle s id k o (proj1 (reachable_parked s Hr)) Hl).
  simpl. split; [done|apply lookup_delete_eq].
Qed.

(** C3. When the request of a send is fulfilled with missing or empty text
    the assistant turn appended is "I couldn't generate a response."; when
    it is rejected the turn is "Sorry, I encountered an error connecting to
    the AI service."; [handleSend] has no path that ends in an exception,
    and no settlement leaves a rejection unhandled. *)
Theorem fallback_texts (s : state) (id : nat) (k : outcome -> proc) :
  reachable s -> inflight s !! id = Some k ->
  (forall result,
     response_text result = None \/ response_text result = Some [] ->
     messages (step (Settle id (Fulfilled result)) s) =
       messages s ++ [{| role := model;
                         text := str "I couldn't generate a response." |}]) /\
  (forall reason,
     messages (step (Settle id (Rejected reason)) s) =
       messages s ++ [{| role := model;
                         text := str "Sorry, I encountered an error connecting to the AI service." |}]) /\
  (forall i c, ~ throws (handleSend i c)) /\
  (forall o, filter is_rejection (trace (step (Settle id o) s)) = []).
Proof.
  intros Hr Hl. split4.
  - intros r Ht. rewrite (step_settle s id k _ (proj1 (reachable_parked s Hr)) Hl).
    simpl. by destruct Ht as [-> | ->].
  - intros e. by rewrite (step_settle s id k _ (proj1 (reachable_parked s Hr)) Hl).
  - apply handleSend_never_throws.
  - intros o. apply reachable_no_rejection. by constructor.
Qed.


(** ** An accepted send, from the call to its settlement *)

Lemma quiet_step (id : nat) (e : event) (s : state) :
  quiet id e = true ->
  inflight s = {[ id := handleSend_resume ]} ->
  messages (step e s) = messages s /\ inflight (step e s) = inflight s.
Proof.
  intros Hq Hi. destruct e as [| | |v|key shift| |env|j o]; unfold step.
  - done.
  - by destruct (rendered s).
  - by destruct (isOpen s).
  - by destruct (rendered s).
  - unfold handleKeyPress. unfold quiet in Hq. apply negb_true_iff in Hq.
    rewrite Hq. by destruct (rendered s) as [[draft shown]|].
  - discriminate.
  - unfold render. by destruct (useMemo _ _ _) as [[[cs kept]|err] t].
  - unfold quiet in Hq. apply negb_true_iff, bool_decide_eq_false in Hq.
    by rewrite Hi, lookup_singleton_ne.
Qed.

Lemma quiet_steps (id : nat) (evs : list event) (s : state) :
  forallb (quiet id) evs = true ->
  inflight s = {[ id := handleSend_resume ]} ->
  messages (steps evs s) = messages s /\ inflight (steps evs s) = inflight s.
Proof.
  revert s. induction evs as [|e evs IH]; intros s Hq Hi; simpl; [done|].
  simpl in Hq. apply andb_true_iff in Hq as [Hq Hqs].
  destruct (quiet_step id e s Hq Hi) as [Hm Hf].
  destruct (IH (step e s) Hqs) as [Hm' Hf']; [congruence|].
  split; congruence.
Qed.

(** What does hold of a send that nothing disturbs. Take a session with a
    handle, a non-blank input and no request in flight, call
    [handleSend], let any events happen that neither submit nor settle
    that request, then let the request settle, with any outcome. The
    transcript is then the one before the call followed by the user turn
    with the trimmed input and one assistant turn: the text of the
    response, or the fallback of the outcome. It is two turns longer, the
    pending flag is false and nothing is in flight. *)
Lemma undisturbed_send_appends_two
    (s : state) (cs : chat) (evs : list event) (o : outcome) :
  chatSession s = Some cs ->
  truthy (trim (input s)) = true ->
  inflight s = ∅ ->
  forallb (quiet (next_request s)) evs = true ->
  let s1 := run (handleSend (input s) (chatSession s)) s in
  let s2 := step (Settle (next_request s) o) (steps evs s1) in
  messages s2 =
    messages s ++
      [{| role := user; text := trim (input s) |};
       {| role := model;
          text := match o with
                  | Fulfilled result =>
                      or_else (response_text result)
                        (str "I couldn't generate a response.")
                  | Rejected _ =>
                      str "Sorry, I encountered an error connecting to the AI service."
                  end |}] /\
  length (messages s2) = (length (messages s) + 2)%nat /\
  isLoading s2 = false /\
  inflight s2 = ∅.
Proof.
  intros Hc Ht Hi Hq s1 s2. subst s2 s1.
  rewrite (run_handleSend_accepted s cs Hc Ht).
  assert (inflight (sending cs s) = {[ next_request s := handleSend_resume ]})
    as Hs by (simpl; by rewrite Hi).
  destruct (quiet_steps _ evs _ Hq Hs) as [Hm Hf].
  set (s' := steps evs (sending cs s)) in *.
  assert (step (Settle (next_request s) o) s' = replied o (settled (next_request s) s'))
    as ->.
  { unfold step. rewrite Hf, Hs, lookup_singleton_eq. apply run_handleSend_resume. }
  simpl. rewrite Hm, Hf, Hs. simpl. split4.
  - rewrite <- app_assoc. by destruct o.
  - rewrite !length_app. simpl. lia.
  - done.
  - apply delete_singleton_eq.
Qed.

(** C2. An accepted send does not always leave the transcript two turns
    longer when it settles. With the window open, a question typed, the
    pending flag clear and nothing in flight, Enter sends the question as
    request 0. While it is pending, "b" is typed and Enter pressed again.
    When request 0 settles the transcript has grown from 1 to 4 turns,
    with two user turns in a row, and the pending flag is false although
    request 1 is still in flight. From there the flag is clear and the
    button enabled: "c" sent with the button, then the settlements of
    requests 1 and 2, take the transcript from 4 to 7 turns. *)
Theorem second_send_breaks_the_two_turn_count :
  accepted s_typed = true /\
  isLoading s_typed = false /\
  inflight s_typed = ∅ /\
  length (messages s_typed) = 1%nat /\
  inflight (step (KeyDown Enter false) s_typed) !! 0%nat = Some handleSend_resume /\
  role <$> messages
    (steps [KeyDown Enter false; Change (str "b"); KeyDown Enter false;
            Settle 0 (Fulfilled {| response_text := Some (str "93.6%") |})] s_typed)
    = [model; user; user; model] /\
  isLoading
    (steps [KeyDown Enter false; Change (str "b"); KeyDown Enter false;
            Settle 0 (Fulfilled {| response_text := Some (str "93.6%") |})] s_typed)
    = false /\
  size (inflight
    (steps [KeyDown Enter false; Change (str "b"); KeyDown Enter false;
            Settle 0 (Fulfilled {| response_text := Some (str "93.6%") |})] s_typed))
    = 1%nat /\
  length (messages
    (steps [KeyDown Enter false; Change (str "b"); KeyDown Enter false;
            Settle 0 (Fulfilled {| response_text := Some (str "93.6%") |});
            Change (str "c"); ClickSend;
            Settle 1 (Rejected (Error [])); Settle 2 (Rejected (Error []))] s_typed))
    = 7%nat.
Proof. vm_compute. repeat split. Qed.

(** ** A session whose construction failed *)

Lemma mount_failed (env : environment) :
  construction_fails env = true ->
  exists t, mount env = Normal (initial None t).
Proof.
  unfold construction_fails, mount, render, unmounted, useMemo,
    Factory.chatSession, Factory.construct, Factory.create,
    Factory.console_error, sync_call.
  destruct (new_GoogleGenerativeAI env _) as [ai|e]; simpl;
    [fold chat_parameters; destruct (chats_create env ai _) as [cs|e]; simpl|];
    try discriminate; by eexists.
Qed.

Lemma disabled_step (e : event) (s : state) :
  chatSession s = None -> inflight s = ∅ -> memoised s ->
  chatSession (step e s) = None /\ inflight (step e s) = ∅ /\
  memoised (step e s) /\
  messages (step e s) = messages s /\ requests (step e s) = requests s.
Proof.
  intros Hc Hi Hm.
  assert (parked s) as Hp by (intros id k; by rewrite Hi, lookup_empty).
  pose proof (step_memoised e s Hp Hm) as Hm'.
  destruct (step_transition e s Hp Hm) as [s' Hui|s1 cs draft _ Hc' _|id o Hl].
  - split; [by rewrite (ui_chatSession _ _ Hui)|].
    split; [by rewrite (ui_inflight _ _ Hui)|]. split; [done|].
    split; [apply (ui_messages _ _ Hui)|by apply requests_ui_step].
  - congruence.
  - by rewrite Hi, lookup_empty in Hl.
Qed.

Lemma disabled_steps (evs : list event) (s : state) :
  chatSession s = None -> inflight s = ∅ -> memoised s ->
  chatSession (steps evs s) = None /\ inflight (steps evs s) = ∅ /\
  messages (steps evs s) = messages s /\ requests (steps evs s) = requests s.
Proof.
  revert s. induction evs as [|e evs IH]; intros s Hc Hi Hm; simpl; [done|].
  destruct (disabled_step e s Hc Hi Hm) as (Hc' & Hi' & Hm' & Hms & Hr).
  destruct (IH (step e s) Hc' Hi' Hm') as (? & ? & ? & ?).
  split4; congruence.
Qed.

(** C6. When the construction of the gateway handle throws, the first
    render still completes: the instance exists, without a session handle
    and with the greeting as its transcript. After any events the handle
    is still missing, the transcript is still the greeting alone, no
    request has been made and none is in flight, and a call of
    [handleSend] returns the state as it got it. *)
Theorem failed_construction_disables (env : environment) (evs : list event) :
  construction_fails env = true ->
  exists s0,
    mount env = Normal s0 /\
    chatSession s0 = None /\
    messages s0 = [greeting] /\
    chatSession (steps evs s0) = None /\
    messages (steps evs s0) = [greeting] /\
    requests (steps evs s0) = [] /\
    inflight (steps evs s0) = ∅ /\
    run (handleSend (input (steps evs s0)) (chatSession (steps evs s0))) (steps evs s0)
      = steps evs s0.
Proof.
  intros Hf. destruct (mount_failed env Hf) as [t Hm].
  exists (initial None t). split4; try done.
  destruct (disabled_steps evs (initial None t)) as (Hc & Hi & Hms & Hr); try done.
  apply mount_trace in Hm as (_ & Hq & _).
  split4; try done; [by rewrite Hr|]. split; [done|].
  by rewrite Hc, handleSend_disabled.
Qed.

(** ** The transcript *)

Lemma reachable_requests_are_user_turns (s : state) (cs : chat)
    (p : SendMessageParameters) :
  reachable s -> ESendMessage cs p ∈ trace s ->
  {| role := user; text := message p |} ∈ messages s.
Proof.
  induction 1 as [env s Hm|e s Hr IH]; intros Hin.
  - apply mount_trace in Hm as (_ & Hq & _).
    assert (ESendMessage cs p ∈ requests s) as Hin'
      by (apply list_elem_of_filter; split; [exact I|done]).
    rewrite Hq in Hin'. by apply elem_of_nil in Hin'.
  - destruct (reachable_parked s Hr) as [Hp Hmemo].
    destruct (step_frame e s Hp Hmemo)
      as [_ [added Ha] (t & Ht & _ & _ & Hs)].
    rewrite Ht in Hin. apply elem_of_app in Hin as [Hin|Hin].
    + rewrite Ha. apply elem_of_app. left. by apply IH.
    + by apply Hs in Hin as [_ ?].
Qed.

(** C7. The transcript of a new instance is the greeting alone, an
    assistant turn, and mounting makes no request. From then on every
    sequence of events leaves the transcript it started from as a prefix
    of the transcript it ends with, so no turn is edited or removed. What
    goes to the gateway is always the text of a user turn of the
    transcript. *)
Theorem transcript_append_only :
  (forall env s0, mount env = Normal s0 ->
     messages s0 = [greeting] /\ role greeting = model /\ requests s0 = []) /\
  (forall s evs, reachable s -> messages s `prefix_of` messages (steps evs s)) /\
  (forall s cs p, reachable s -> ESendMessage cs p ∈ trace s ->
     {| role := user; text := message p |} ∈ messages s).
Proof.
  split3.
  - intros env s0 Hm. destruct (mount_normal env) as (cs & t & _ & Hm').
    rewrite Hm' in Hm. injection Hm as <-. split3; try done.
    by apply (mount_trace env) in Hm' as (_ & ? & _).
  - intros s evs Hr. destruct (reachable_parked s Hr) as [Hp Hmemo].
    destruct (steps_frame evs s Hp Hmemo) as [_ [added Ha] _].
    by exists added.
  - intros s cs p. apply reachable_requests_are_user_turns.
Qed.

(** ** The session handle *)



(** ** Sending while a request is in flight *)

(** The send button of an open window is disabled while the pending flag
    is set, so a click does nothing then. *)
Lemma click_while_pending_is_noop (s : state) :
  isOpen s = true -> isLoading s = true -> step ClickSend s = s.
Proof.
  intros Ho H. unfold step, rendered, disabled_attr. by rewrite Ho, H, orb_true_r.
Qed.

(** The Enter key has no such guard: on an open window it runs
    [handleSend] whatever the pending flag is. *)
Lemma enter_ignores_pending (s : state) :
  isOpen s = true ->
  step (KeyDown Enter false) s =
    run (handleSend (input s) (chatSession s)) (emit EPreventDefault s).
Proof. intros H. unfold step, rendered. by rewrite H. Qed.

(** C1. A send issued while the session is pending is not rejected when
    it comes from the Enter key. On a working gateway: open the window,
    type "a", press Enter; the session is pending with one request in
    flight. Type "b" and press Enter again: a second user turn is
    appended, a second [sendMessage] is made, and two requests are in
    flight together. The same second message submitted with the send
    button is dropped. *)
Theorem enter_while_pending_sends_again :
  mount env_ok = Normal s_ok /\
  isLoading s_pending = true /\
  size (inflight s_pending) = 1%nat /\
  messages (steps [Change (str "b"); KeyDown Enter false] s_pending) =
    messages s_pending ++ [{| role := user; text := str "b" |}] /\
  requests (steps [Change (str "b"); KeyDown Enter false] s_pending) =
    requests s_pending ++ [ESendMessage (Chat 0) {| message := str "b" |}] /\
  size (inflight (steps [Change (str "b"); KeyDown Enter false] s_pending)) = 2%nat /\
  messages (steps [Change (str "b"); ClickSend] s_pending) = messages s_pending /\
  requests (steps [Change (str "b"); ClickSend] s_pending) = requests s_pending.
Proof. vm_compute. repeat split. Qed.

(** ** The theorems at work on sample runs *)

Lemma s_pending_reachable : reachable s_pending.
Proof.
  apply (steps_reachable [ClickOpen; Change (str "a"); KeyDown Enter false] s_ok).
  by apply (reachable_mount env_ok).
Defined.

Lemma blank_send_is_noop_witness :
  blank (input s_blank) = true /\
  run (handleSend (input s_blank) (chatSession s_blank)) s_blank = s_blank /\
  step ClickSend s_blank = s_blank /\
  forall shiftKey,
    messages (step (KeyDown Enter shiftKey) s_blank) = messages s_blank /\
    isLoading (step (KeyDown Enter shiftKey) s_blank) = isLoading s_blank /\
    input (step (KeyDown Enter shiftKey) s_blank) = input s_blank /\
    requests (step (KeyDown Enter shiftKey) s_blank) = requests s_blank /\
    inflight (step (KeyDown Enter shiftKey) s_blank) = inflight s_blank.
Proof.
  split; [reflexivity|].
  destruct (blank_send_is_noop s_blank eq_refl) as [Hrun Hwindow].
  split; [exact Hrun|]. apply Hwindow.
  intros draft shown [= <- _]. reflexivity.
Defined.

Lemma input_cleared_iff_accepted_witness :
  accepted s_typed = true /\ accepted s_blank = false /\
  input s_typed = str " What is the F1 score? " /\
  input (run (handleSend (input s_typed) (chatSession s_typed)) s_typed) = [] /\
  run (handleSend (input s_blank) (chatSession s_blank)) s_blank = s_blank.
Proof.
  split4; [reflexivity|reflexivity|reflexivity|]. split.
  - apply (proj1 (input_cleared_iff_accepted s_typed)). reflexivity.
  - apply (proj1 (proj2 (input_cleared_iff_accepted s_blank))). reflexivity.
Defined.

Lemma one_request_per_send_witness :
  chatSession s_typed = Some (Chat 0) /\
  truthy (trim (input s_typed)) = true /\
  let s1 := run (handleSend (input s_typed) (chatSession s_typed)) s_typed in
  let s2 := step (Settle (next_request s_typed) (Rejected (Error (str "offline")))) s1 in
  requests s1 =
    requests s_typed ++ [ESendMessage (Chat 0) {| message := trim (input s_typed) |}] /\
  messages s1 =
    messages s_typed ++ [{| role := user; text := trim (input s_typed) |}] /\
  requests s2 = requests s1.
Proof.
  split3; [reflexivity|reflexivity|].
  apply (one_request_per_send s_typed (Chat 0)); reflexivity.
Defined.

Lemma pending_released_on_settle_witness :
  reachable s_pending /\
  inflight s_pending !! 0%nat = Some handleSend_resume /\
  forall o,
    isLoading (step (Settle 0 o) s_pending) = false /\
    inflight (step (Settle 0 o) s_pending) !! 0%nat = None.
Proof.
  split3; [exact s_pending_reachable|reflexivity|].
  apply (pending_released_on_settle s_pending 0 handleSend_resume);
    [exact s_pending_reachable|reflexivity].
Defined.

Lemma fallback_texts_witness :
  reachable s_pending /\
  inflight s_pending !! 0%nat = Some handleSend_resume /\
  messages (step (Settle 0 (Fulfilled {| response_text := Some [] |})) s_pending) =
    messages s_pending ++ [{| role := model;
                              text := str "I couldn't generate a response." |}] /\
  messages (step (Settle 0 (Rejected (Error (str "offline")))) s_pending) =
    messages s_pending ++ [{| role := model;
                              text := str "Sorry, I encountered an error connecting to the AI service." |}].
Proof.
  split3; [exact s_pending_reachable|reflexivity|].
  destruct (fallback_texts s_pending 0 handleSend_resume s_pending_reachable eq_refl)
    as (Hempty & Hfail & _).
  split; [apply Hempty; by right|apply Hfail].
Defined.

Lemma failed_construction_disables_witness :
  construction_fails env_no_key = true /\
  exists s0,
    mount env_no_key = Normal s0 /\
    chatSession s0 = None /\
    messages s0 = [greeting] /\
    chatSession (steps [ClickOpen; Change (str "hello"); KeyDown Enter false] s0) = None /\
    messages (steps [ClickOpen; Change (str "hello"); KeyDown Enter false] s0) = [greeting] /\
    requests (steps [ClickOpen; Change (str "hello"); KeyDown Enter false] s0) = [] /\
    inflight (steps [ClickOpen; Change (str "hello"); KeyDown Enter false] s0) = ∅.
Proof.
  split; [reflexivity|].
  destruct (failed_construction_disables env_no_key
              [ClickOpen; Change (str "hello"); KeyDown Enter false] eq_refl)
    as (s0 & H0 & H1 & H2 & H3 & H4 & H5 & H6 & _).
  exists s0. by split4; [| | |split4].
Defined.

Lemma transcript_append_only_witness :
  mount env_ok = Normal s_ok /\
  reachable s_pending /\
  ESendMessage (Chat 0) {| message := str "a" |} ∈ trace s_pending /\
  messages s_ok = [greeting] /\
  messages s_pending `prefix_of`
    messages (steps [Settle 0 (Rejected (Error []))] s_pending) /\
  {| role := user; text := str "a" |} ∈ messages s_pending.
Proof.
  assert (ESendMessage (Chat 0) {| message := str "a" |} ∈ trace s_pending) as Hin.
  { apply list_elem_of_In. vm_compute. repeat ((left; reflexivity) || right). }
  destruct transcript_append_only as (Hinit & Hprefix & Hsent).
  split; [reflexivity|]. split; [exact s_pending_reachable|]. split; [exact Hin|].
  split3.
  - apply (Hinit env_ok s_ok). reflexivity.
  - apply (Hprefix s_pending _ s_pending_reachable).
  - apply (Hsent s_pending (Chat 0) {| message := str "a" |} s_pending_reachable Hin).
Defined.


(** * Further properties of the assistant *)

(** ** What [trim] returns *)

Lemma clean_trimStart (s : jsstring) : clean (trimStart s) = true.
Proof.
  induction s as [|c r IH]; simpl; [done|].
  destruct (is_space c) eqn:E; [exact IH|]. simpl. by rewrite E.
Qed.

Lemma trimStart_clean (s : jsstring) : clean s = true -> trimStart s = s.
Proof.
  destruct s as [|c r]; simpl; [done|].
  intros E. apply negb_true_iff in E. by rewrite E.
Qed.

Lemma trimStart_suffix (s : jsstring) : exists pre, s = pre ++ trimStart s.
Proof.
  induction s as [|c r [pre IH]]; simpl; [by exists []|].
  destruct (is_space c); [|by exists []].
  exists (c :: pre). simpl. by rewrite <- IH.
Qed.

Lemma clean_head (s : jsstring) :
  clean s = true -> s <> [] -> exists c, head s = Some c /\ is_space c = false.
Proof.
  destruct s as [|c r]; simpl; [done|].
  intros E _. exists c. split; [done|]. by apply negb_true_iff.
Qed.

Lemma trim_trimmed (s : jsstring) : truthy (trim s) = true -> trimmed (trim s).
Proof.
  unfold trim, trimEnd. set (t := trimStart s). set (u := trimStart (reverse t)).
  intros Hne.
  assert (u <> []) as Hu by (intros E; by rewrite E in Hne).
  destruct (clean_head u (clean_trimStart _) Hu) as (c' & Hc' & Hs').
  destruct (trimStart_suffix (reverse t)) as [pre Hpre]. fold u in Hpre.
  assert (t <> []) as Ht.
  { intros E. rewrite E in Hpre. by destruct pre, u. }
  destruct (clean_head t (clean_trimStart _) Ht) as (c & Hc & Hs).
  exists c, c'. split4; try done.
  - rewrite head_reverse. rewrite <- last_reverse, Hpre in Hc.
    rewrite last_app in Hc. by destruct (last u) eqn:E; [|apply last_None in E].
  - by rewrite last_reverse.
Qed.

Lemma trimmed_clean (t : jsstring) :
  trimmed t -> clean t = true /\ clean (reverse t) = true.
Proof.
  intros (c & c' & Hh & Hl & Hc & Hc'). split.
  - destruct t; simplify_eq/=. by rewrite Hc.
  - rewrite <- head_reverse in Hl. destruct (reverse t); simplify_eq/=. by rewrite Hc'.
Qed.

Lemma trim_of_trimmed (t : jsstring) : trimmed t -> trim t = t.
Proof.
  intros Ht. apply trimmed_clean in Ht as [H1 H2]. unfold trim, trimEnd.
  by rewrite (trimStart_clean _ H1), (trimStart_clean _ H2), reverse_involutive.
Qed.

Lemma trim_idempotent (s : jsstring) : trim (trim s) = trim s.
Proof.
  destruct (truthy (trim s)) eqn:E.
  - apply trim_of_trimmed, trim_trimmed, E.
  - apply truthy_false in E. by rewrite E.
Qed.

(** ** Invariants of the reachable states *)

Lemma reachable_invariant (P : state -> Prop) :
  (forall env s, mount env = Normal s -> P s) ->
  (forall s s', reachable s -> transition s s' -> P s -> P s') ->
  forall s, reachable s -> P s.
Proof.
  intros Hm Ht s Hr. induction Hr as [env s Hs|e s Hr IH]; [by eapply Hm|].
  destruct (reachable_parked s Hr) as [Hp Hmemo].
  eapply Ht; eauto using step_transition.
Qed.

Lemma mount_initial (env : environment) (s : state) :
  mount env = Normal s -> exists cs t, s = initial cs t /\ omap payload t = [].
Proof.
  unfold mount, render, unmounted, useMemo, Factory.chatSession,
    Factory.construct, Factory.create, Factory.console_error, sync_call.
  destruct (new_GoogleGenerativeAI env _) as [ai|e]; simpl;
    [destruct (chats_create env ai _) as [cs|e]; simpl|];
    intros [= <-]; by do 2 eexists.
Qed.

(** Every user turn of the transcript is what [trim] returned on a
    non-blank input: it starts and ends with a code unit that is not white
    space, so it is never empty, and trimming it again changes nothing. *)
Theorem user_turns_are_trimmed (s : state) (m : Message) :
  reachable s -> m ∈ messages s -> role m = user ->
  trimmed (text m) /\ text m <> [] /\ trim (text m) = text m.
Proof.
  intros Hr. revert m.
  assert (forall m, m ∈ messages s -> role m = user -> trimmed (text m)) as Hall.
  { revert s Hr. apply (reachable_invariant
      (fun s => forall m, m ∈ messages s -> role m = user -> trimmed (text m))).
    - intros env s Hm m Hin Hu. apply mount_initial in Hm as (cs & t & -> & _).
      apply list_elem_of_singleton in Hin. by subst m.
    - intros s s' _ T IH m.
      destruct T as [s' Hui|s1 cs draft Hui Hc Ht|id o Hl]; simpl.
      + rewrite (ui_messages _ _ Hui). apply IH.
      + rewrite (ui_messages _ _ Hui). intros Hin Hu.
        apply elem_of_app in Hin as [Hin|Hin]; [by apply IH|].
        apply list_elem_of_singleton in Hin. subst m. by apply trim_trimmed.
      + intros Hin Hu. apply elem_of_app in Hin as [Hin|Hin]; [by apply IH|].
        apply list_elem_of_singleton in Hin. subst m. by destruct o. }
  intros m Hin Hu. pose proof (Hall m Hin Hu) as Ht. split3; [done| |].
  - destruct Ht as (c & _ & Hh & _). intros E. by rewrite E in Hh.
  - by apply trim_of_trimmed.
Qed.

Lemma payloads_ui_step (s s' : state) : ui_step s s' -> payloads s' = payloads s.
Proof.
  intros [_ _ _ _ _ _ (t & Ht & Hui)]. unfold payloads.
  apply ui_effects_benign in Hui as (_ & _ & _ & Hp).
  by rewrite Ht, omap_app, Hp, app_nil_r.
Qed.

Lemma payloads_sending_as (cs : chat) (draft : jsstring) (s : state) :
  payloads (sending_as cs draft s) = payloads s ++ [trim draft].
Proof. unfold payloads. simpl. by rewrite omap_app. Qed.

Lemma user_texts_snoc (ms : list Message) (m : Message) :
  text <$> filter is_user (ms ++ [m]) =
    (text <$> filter is_user ms) ++ (if is_user m then [text m] else []).
Proof.
  rewrite filter_app, fmap_app. f_equal. by destruct m as [[] t].
Qed.

(** The messages handed to the gateway are, in the same order and one for
    one, the texts of the user turns of the transcript. *)
Theorem payloads_are_the_user_turns (s : state) :
  reachable s -> payloads s = user_texts s.
Proof.
  revert s. apply reachable_invariant.
  - intros env s Hm. apply mount_initial in Hm as (cs & t & -> & Ht).
    unfold payloads, user_texts. simpl. by rewrite Ht.
  - intros s s' _ T IH. unfold user_texts in *.
    destruct T as [s' Hui|s1 cs draft Hui Hc Ht|id o Hl].
    + by rewrite (payloads_ui_step _ _ Hui), (ui_messages _ _ Hui).
    + rewrite payloads_sending_as, (payloads_ui_step _ _ Hui), IH. simpl.
      by rewrite (ui_messages _ _ Hui), user_texts_snoc.
    + unfold payloads in *. simpl. rewrite omap_app, IH, user_texts_snoc.
      destruct o; simpl; by rewrite !app_nil_r.
Qed.

(** Request identifiers are handed out in order: whatever is in flight
    was numbered before [next_request]. *)
Lemma inflight_below_next (s : state) (id : nat) :
  reachable s -> is_Some (inflight s !! id) -> (id < next_request s)%nat.
Proof.
  intros Hr. revert id. revert s Hr.
  apply (reachable_invariant
    (fun s => forall id, is_Some (inflight s !! id) -> (id < next_request s)%nat)).
  - intros env s Hm id [k Hk]. apply mount_initial in Hm as (cs & t & -> & _).
    simpl in Hk. by rewrite lookup_empty in Hk.
  - intros s s' _ T IH id.
    destruct T as [s' Hui|s1 cs draft Hui Hc Ht|id' o Hl]; simpl.
    + rewrite (ui_inflight _ _ Hui), (ui_next_request _ _ Hui). apply IH.
    + rewrite (ui_inflight _ _ Hui), (ui_next_request _ _ Hui).
      intros [k Hk]. apply lookup_insert_Some in Hk as [[<- _]|[_ Hk]]; [lia|].
      assert (id < next_request s)%nat by (apply IH; by eexists). lia.
    + intros [k Hk]. apply lookup_delete_Some in Hk as [_ Hk]. apply IH. by eexists.
Qed.

(** Every request has put one user turn into the transcript, and one
    assistant turn unless it is still in flight: with the greeting, the
    transcript has one turn, plus two for each request made, minus one for
    each request in flight. The requests made are as many as the
    identifiers handed out. *)
Theorem transcript_length_accounts_for_requests (s : state) :
  reachable s ->
  (length (messages s) + size (inflight s) = 1 + 2 * length (requests s))%nat /\
  length (requests s) = next_request s.
Proof.
  intros Hr. pose proof Hr as Hr'. revert s Hr' Hr.
  apply (reachable_invariant
    (fun s => reachable s ->
       (length (messages s) + size (inflight s) = 1 + 2 * length (requests s))%nat /\
       length (requests s) = next_request s)).
  - intros env s Hm _. pose proof (mount_trace env s Hm) as (_ & Hq & _).
    apply mount_initial in Hm as (cs & t & -> & _). rewrite Hq. simpl.
    by rewrite map_size_empty.
  - intros s s' Hr T IH _. destruct (IH Hr) as [IH1 IH2].
    assert (inflight s !! next_request s = None) as Hfresh.
    { destruct (inflight s !! next_request s) eqn:E; [|done].
      assert (next_request s < next_request s)%nat
        by (apply inflight_below_next; [done|by eexists]). lia. }
    destruct T as [s' Hui|s1 cs draft Hui Hc Ht|id o Hl].
    + by rewrite (ui_messages _ _ Hui), (ui_inflight _ _ Hui),
        (requests_ui_step _ _ Hui), (ui_next_request _ _ Hui).
    + rewrite requests_sending_as, !length_app, (requests_ui_step _ _ Hui). simpl.
      rewrite length_app, (ui_messages _ _ Hui), (ui_inflight _ _ Hui),
        (ui_next_request _ _ Hui), (map_size_insert_None _ _ _ Hfresh). simpl. lia.
    + rewrite requests_replied. simpl. rewrite length_app. simpl.
      assert (size (inflight s) <> 0)%nat as Hne.
      { apply map_size_non_empty_iff. intros E. by rewrite E, lookup_empty in Hl. }
      rewrite (map_size_delete_Some id (inflight s)) by (by eexists).
      change (requests (settled id s)) with (requests s). lia.
Qed.

(** While the pending flag is set, a request is in flight: the loading
    indicator is never shown with nothing to wait for. *)
Theorem pending_flag_has_a_request (s : state) :
  reachable s -> isLoading s = true -> inflight s <> ∅.
Proof.
  revert s. apply (reachable_invariant (fun s => isLoading s = true -> inflight s <> ∅)).
  - intros env s Hm. by apply mount_initial in Hm as (cs & t & -> & _).
  - intros s s' _ T IH. destruct T as [s' Hui|s1 cs draft Hui Hc Ht|id o Hl]; simpl.
    + by rewrite (ui_isLoading _ _ Hui), (ui_inflight _ _ Hui).
    + intros _. apply insert_non_empty.
    + done.
Qed.

(** ** Requests kept apart *)

Lemma rendered_live (s : state) (draft : jsstring) (shown : bool) :
  rendered s = Some (draft, shown) -> closing s = false ->
  isOpen s = true /\ draft = input s /\ shown = isLoading s.
Proof.
  unfold rendered, closing. destruct (isOpen s); simpl.
  - by intros [= <- <-].
  - intros -> H. by rewrite bool_decide_eq_false in H; destruct H.
Qed.

(** Under that discipline a step does one of three things to the
    transcript, the flag and the requests in flight: nothing, the start of
    a send from rest, or the settlement of the one request in flight. *)
Lemma polite_step (e : event) (s : state) :
  polite [e] s = true -> one_at_a_time s ->
  (messages (step e s) = messages s /\ isLoading (step e s) = isLoading s /\
   inflight (step e s) = inflight s) \/
  (isLoading s = false /\
   exists t id,
     messages (step e s) = messages s ++ [{| role := user; text := t |}] /\
     isLoading (step e s) = true /\
     inflight (step e s) = {[ id := handleSend_resume ]}) \/
  (isLoading s = true /\
   exists o,
     messages (step e s) = messages s ++ [reply o] /\
     isLoading (step e s) = false /\
     inflight (step e s) = ∅).
Proof.
  intros Hp Hs.
  assert (forall draft s', isLoading s = false -> inflight s = ∅ ->
            messages s' = messages s -> isLoading s' = isLoading s ->
            inflight s' = inflight s ->
            (messages (run (handleSend draft (chatSession s')) s') = messages s /\
             isLoading (run (handleSend draft (chatSession s')) s') = isLoading s /\
             inflight (run (handleSend draft (chatSession s')) s') = inflight s) \/
            (isLoading s = false /\
             exists t id,
               messages (run (handleSend draft (chatSession s')) s')
                 = messages s ++ [{| role := user; text := t |}] /\
               isLoading (run (handleSend draft (chatSession s')) s') = true /\
               inflight (run (handleSend draft (chatSession s')) s')
                 = {[ id := handleSend_resume ]})) as Hsend.
  { intros draft s' Hl Hi Hm Hl' Hi'.
    destruct (run_handleSend_cases draft (chatSession s') s')
      as [->|(cs & _ & _ & ->)].
    - by left.
    - right. split; [done|]. exists (trim draft), (next_request s'). simpl.
      by rewrite Hm, Hi', Hi. }
  unfold polite in Hp. rewrite andb_true_r in Hp.
  destruct e as [| | |v|key shift| |env|id o]; unfold step.
  - by left.
  - left. by destruct (rendered s).
  - left. by destruct (isOpen s).
  - left. by destruct (rendered s).
  - destruct (rendered s) as [[draft shown]|] eqn:E; [|by left].
    unfold handleKeyPress.
    destruct (jsstring_eqb key (str "Enter") && negb shift); [|by left].
    simpl in Hp. apply negb_true_iff, orb_false_iff in Hp as [Hl Hc].
    destruct Hs as [[_ Hi]|[Hl' _]]; [|congruence].
    destruct (Hsend draft (emit EPreventDefault s) Hl Hi eq_refl eq_refl eq_refl)
      as [H1|H2]; [left; exact H1|right; left; exact H2].
  - destruct (rendered s) as [[draft shown]|] eqn:E; [|by left].
    apply negb_true_iff in Hp.
    destruct (rendered_live s draft shown E Hp) as (_ & _ & ->).
    unfold disabled_attr. destruct (isLoading s) eqn:Hl.
    + rewrite orb_true_r. by left.
    + rewrite orb_false_r. destruct (negb (truthy (trim draft))); [by left|].
      destruct Hs as [[_ Hi]|[Hl' _]]; [|congruence].
      destruct (Hsend draft s eq_refl Hi eq_refl Hl eq_refl)
        as [H1|H2]; [left; exact H1|right; left; exact H2].
  - left. unfold render. by destruct (useMemo _ _ _) as [[[cs kept]|err] t].
  - destruct Hs as [[Hl Hi]|[Hl [id' Hi]]].
    + rewrite Hi, lookup_empty. by left.
    + rewrite Hi. destruct (decide (id' = id)) as [->|Hne].
      * rewrite lookup_singleton_eq, run_handleSend_resume. right; right.
        split; [done|]. exists o. simpl. split3; try done.
        rewrite Hi. apply delete_singleton_eq.
      * rewrite lookup_singleton_ne by done. by left.
Qed.

Lemma one_at_a_time_step (e : event) (s : state) :
  polite [e] s = true -> one_at_a_time s -> one_at_a_time (step e s).
Proof.
  intros Hp Hs.
  destruct (polite_step e s Hp Hs)
    as [(_ & Hl & Hi)|[(_ & t & id & _ & Hl & Hi)|(_ & o & _ & Hl & Hi)]].
  - unfold one_at_a_time. by rewrite Hl, Hi.
  - right. eauto.
  - by left.
Qed.

Lemma polite_steps_one_at_a_time (evs : list event) (s : state) :
  polite evs s = true -> one_at_a_time s -> one_at_a_time (steps evs s).
Proof.
  revert s. induction evs as [|e evs IH]; intros s Hp H0; [done|].
  simpl. simpl in Hp. apply andb_true_iff in Hp as [He Hrest].
  apply IH; [done|]. apply one_at_a_time_step; [|done].
  simpl. by rewrite He.
Qed.

Lemma mount_one_at_a_time (env : environment) (s : state) :
  mount env = Normal s -> one_at_a_time s.
Proof. intros Hm. apply mount_initial in Hm as (cs & t & -> & _). by left. Qed.

(** If Enter is never pressed while the pending flag is set, and nothing
    is submitted on the chat window during its exit animation, requests
    never overlap: at most one is in flight, and the flag is set exactly
    while one is. The send button of an open window may be clicked at any
    time. *)
Theorem no_overlap_without_enter_while_pending
    (env : environment) (s0 : state) (evs : list event) :
  mount env = Normal s0 ->
  polite evs s0 = true ->
  (size (inflight (steps evs s0)) <= 1)%nat /\
  (isLoading (steps evs s0) = true <-> size (inflight (steps evs s0)) = 1%nat).
Proof.
  intros Hm Hp.
  destruct (polite_steps_one_at_a_time evs s0 Hp (mount_one_at_a_time env s0 Hm))
    as [[Hl Hi]|[Hl [id Hi]]]; rewrite Hl, Hi.
  - rewrite map_size_empty. split; [lia|]. split; [done|lia].
  - rewrite map_size_singleton. split; [lia|done].
Qed.

(** Without it they do: the send button of a closing window is the one
    of the last open render, enabled and made from the draft of that
    render, so two clicks on it send that draft twice. *)
Lemma clicks_on_a_closing_window_overlap :
  polite closing_run s_ok = false /\
  isOpen (steps closing_run s_ok) = false /\
  payloads (steps closing_run s_ok) = [str "hello"; str "hello"] /\
  role <$> messages (steps closing_run s_ok) = [model; user; user] /\
  size (inflight (steps closing_run s_ok)) = 2%nat.
Proof. vm_compute. repeat split. Qed.

(** Under the same discipline the conversation takes turns: counting from
    the greeting at position 0, the turns at even positions are the
    assistant's and those at odd positions the user's, and the transcript
    ends with a user turn exactly while the pending flag is set. *)
Theorem turns_alternate_without_enter_while_pending
    (env : environment) (s0 : state) (evs : list event) :
  mount env = Normal s0 ->
  polite evs s0 = true ->
  (forall i m, messages (steps evs s0) !! i = Some m ->
     role m = if Nat.even i then model else user) /\
  Nat.even (length (messages (steps evs s0))) = isLoading (steps evs s0).
Proof.
  intros Hm Hp.
  assert (in_turn s0 /\ one_at_a_time s0) as H0.
  { split; [|by eapply mount_one_at_a_time].
    apply mount_initial in Hm as (cs & t & -> & _). split; [|done].
    intros [|i] m; simpl; [by intros [= <-]|done]. }
  clear Hm. revert s0 Hp H0. induction evs as [|e evs IH]; intros s Hp [Ht H1].
  - done.
  - simpl. simpl in Hp. apply andb_true_iff in Hp as [He Hrest].
    assert (polite [e] s = true) as He' by (simpl; by rewrite He).
    apply IH; [done|]. split; [|by apply one_at_a_time_step].
    destruct Ht as [Hroles Hpar]. unfold in_turn.
    destruct (polite_step e s He' H1)
      as [(Hms & Hl & _)|[(Hl0 & t & id & Hms & Hl & _)|(Hl0 & o & Hms & Hl & _)]];
      rewrite Hms, Hl; [by split| |].
    + split.
      * intros i m Hi. apply lookup_app_Some in Hi as [Hi|[Hge Hi]]; [by apply Hroles|].
        apply list_lookup_singleton_Some in Hi as [Hi <-].
        replace i with (length (messages s)) by lia. simpl.
        by rewrite Hpar, Hl0.
      * rewrite length_app, Nat.add_1_r, Nat.even_succ, <- Nat.negb_even, Hpar, Hl0.
        done.
    + split.
      * intros i m Hi. apply lookup_app_Some in Hi as [Hi|[Hge Hi]]; [by apply Hroles|].
        apply list_lookup_singleton_Some in Hi as [Hi <-].
        replace i with (length (messages s)) by lia.
        rewrite Hpar, Hl0. by destruct o.
      * rewrite length_app, Nat.add_1_r, Nat.even_succ, <- Nat.negb_even, Hpar, Hl0.
        done.
Qed.

(** ** What a settlement does and does not touch *)

(** A response whose text is not empty is shown as it is, even if it is
    nothing but white space: the fallback stands in for missing or empty
    text only. *)
Theorem response_text_is_shown_verbatim
    (s : state) (id : nat) (k : outcome -> proc) (t : jsstring) :
  reachable s -> inflight s !! id = Some k -> t <> [] ->
  messages (step (Settle id (Fulfilled {| response_text := Some t |})) s) =
    messages s ++ [{| role := model; text := t |}].
Proof.
  intros Hr Hl Ht. rewrite (step_settle s id k _ (proj1 (reachable_parked s Hr)) Hl).
  simpl. by destruct t.
Qed.

(** The settlement of a request leaves the draft in the input, the
    open or closed window and the session handle as they are, makes no
    request, and takes only its own request out of those in flight. It
    does so whether the window is open or not. *)
Theorem settlement_frame (s : state) (id : nat) (k : outcome -> proc) (o : outcome) :
  reachable s -> inflight s !! id = Some k ->
  input (step (Settle id o) s) = input s /\
  isOpen (step (Settle id o) s) = isOpen s /\
  chatSession (step (Settle id o) s) = chatSession s /\
  requests (step (Settle id o) s) = requests s /\
  inflight (step (Settle id o) s) = delete id (inflight s) /\
  length (messages (step (Settle id o) s)) = S (length (messages s)).
Proof.
  intros Hr Hl. rewrite (step_settle s id k _ (proj1 (reachable_parked s Hr)) Hl).
  split4; try done. split3; try done.
  - by rewrite requests_replied.
  - simpl. rewrite length_app. simpl. lia.
Qed.

(** * The page *)

Lemma elem_of_classList_add (t token : jsstring) (l : list jsstring) :
  t ∈ classList_add token l <-> t = token \/ t ∈ l.
Proof.
  unfold classList_add. case_bool_decide as Hin.
  - split; [intros ?; by right|]. by intros [->|?].
  - rewrite elem_of_app, list_elem_of_singleton. tauto.
Qed.

Lemma elem_of_classList_remove (t token : jsstring) (l : list jsstring) :
  t ∈ classList_remove token l <-> t <> token /\ t ∈ l.
Proof. unfold classList_remove. by rewrite list_elem_of_filter. Qed.

Lemma classList_remove_add (token : jsstring) (l : list jsstring) :
  classList_remove token (classList_add token l) = classList_remove token l.
Proof.
  unfold classList_add, classList_remove. case_bool_decide; [done|].
  rewrite filter_app. rewrite (filter_cons_False _ token); [|by intros ?].
  by rewrite filter_nil, app_nil_r.
Qed.

Lemma classList_remove_remove (token : jsstring) (l : list jsstring) :
  classList_remove token (classList_remove token l) = classList_remove token l.
Proof.
  unfold classList_remove. induction l as [|t l IH]; [done|].
  rewrite (filter_cons _ t l). case_decide as Ht; [|exact IH].
  rewrite filter_cons_True by done. by rewrite IH.
Qed.

Lemma NoDup_classList_add (token : jsstring) (l : list jsstring) :
  NoDup l -> NoDup (classList_add token l).
Proof.
  intros Hl. unfold classList_add. case_bool_decide as Hin; [done|].
  apply NoDup_app. split3; [done| |apply NoDup_singleton].
  intros t Ht Ht'. apply list_elem_of_singleton in Ht'. by subst t.
Qed.

Section Website_properties.
Context {num : Type} `{Float64 num}.

Lemma dark_effect_in_step (classes : list jsstring) (s : @Website.page num) (v : bool) :
  Website.dark_in_step classes s ->
  Website.dark_in_step classes (Website.dark_effect (Website.setIsDark v s)).
Proof.
  intros (_ & Hrest & Hnd).
  unfold Website.dark_in_step, Website.dark_effect, Website.setIsDark.
  cbn [Website.isDark].
  destruct v; unfold Website.setClassList; cbn [Website.isDark Website.classList];
    split3.
  - split; [done|]. intros _. apply elem_of_classList_add. by left.
  - by rewrite classList_remove_add.
  - intros Hc. by apply NoDup_classList_add, Hnd.
  - split; [|done]. intros Hin. by apply elem_of_classList_remove in Hin as [? _].
  - by rewrite classList_remove_remove.
  - intros Hc. by apply NoDup_filter, Hnd.
Qed.

Lemma page_step_in_step (classes : list jsstring) (e : @Website.page_event num)
    (s : @Website.page num) :
  Website.dark_in_step classes s -> Website.dark_in_step classes (Website.page_step e s).
Proof.
  intros Hs. destruct e as [y| |id dom y| | |]; simpl; try done.
  - unfold Website.scrollToSection. by destruct (dom id).
  - by apply dark_effect_in_step.
  - by destruct (Website.menuOpen s).
Qed.

(** After mounting and any events on the page, the document element has
    the class "dark" exactly when [isDark] is set; its other classes are
    those it had before, in their order; and the class list has no
    duplicate if it had none. In particular the page starts light even on
    a document that came with the class. *)
Theorem dark_class_follows_isDark
    (classes : list jsstring) (evs : list (@Website.page_event num)) :
  (str "dark" ∈ Website.classList (Website.page_steps evs (Website.page_mount (num := num) classes))
     <-> Website.isDark (Website.page_steps evs (Website.page_mount (num := num) classes)) = true) /\
  classList_remove (str "dark")
      (Website.classList (Website.page_steps evs (Website.page_mount (num := num) classes)))
    = classList_remove (str "dark") classes /\
  (NoDup classes ->
     NoDup (Website.classList (Website.page_steps evs (Website.page_mount (num := num) classes)))) /\
  Website.isDark (Website.page_mount (num := num) classes) = false.
Proof.
  assert (Website.dark_in_step classes (Website.page_mount (num := num) classes)) as H0.
  { unfold Website.dark_in_step, Website.page_mount, Website.dark_effect,
      Website.setClassList.
    cbn [Website.isDark Website.classList]. split3.
    - split; [|done]. intros Hin. by apply elem_of_classList_remove in Hin as [? _].
    - by rewrite classList_remove_remove.
    - intros Hc. by apply NoDup_filter. }
  assert (Website.dark_in_step classes (Website.page_steps evs (Website.page_mount (num := num) classes)))
    as (H1 & H2 & H3).
  { generalize dependent (Website.page_mount (num := num) classes).
    induction evs as [|e evs IH]; intros s Hs; [done|].
    simpl. by apply IH, page_step_in_step. }
  done.
Qed.

End Website_properties.

(** * The scene *)

Section QuantumScene_properties.
Context {num : Type} `{Float64 num}.
Local Open Scope nat_scope.

Lemma point_spec (random : nat -> num) (k : nat) (s : QuantumScene.cloud) :
  k * 3 + 2 < length (QuantumScene.p s) ->
  let theta := fmul (fmul (random (QuantumScene.drawn s)) PI) (of_Z 2) in
  let phi := facos (fsub (fmul (random (QuantumScene.drawn s + 1)) (of_Z 2)) (of_Z 1)) in
  let r := fadd (of_Z 3) (fmul (random (QuantumScene.drawn s + 2)) (of_decimal 5 1)) in
  let s' := QuantumScene.point random k s in
  length (QuantumScene.p s') = length (QuantumScene.p s) /\
  QuantumScene.drawn s' = QuantumScene.drawn s + 3 /\
  QuantumScene.p s' !! (k * 3) = Some (fround (fmul (fmul r (fsin phi)) (fcos theta))) /\
  QuantumScene.p s' !! (k * 3 + 1) = Some (fround (fmul (fmul r (fsin phi)) (fsin theta))) /\
  QuantumScene.p s' !! (k * 3 + 2) = Some (fround (fmul r (fcos phi))) /\
  forall j, j < k * 3 -> QuantumScene.p s' !! j = QuantumScene.p s !! j.
Proof.
  intros Hlen theta phi r s'. subst s'. unfold QuantumScene.point.
  cbn [QuantumScene.p QuantumScene.drawn]. fold theta phi r.
  rewrite !length_insert. split; [done|]. split; [done|]. split4.
  - rewrite list_lookup_insert_ne by lia. rewrite list_lookup_insert_ne by lia.
    apply list_lookup_insert_eq. lia.
  - rewrite list_lookup_insert_ne by lia. apply list_lookup_insert_eq.
    rewrite length_insert. lia.
  - apply list_lookup_insert_eq. rewrite !length_insert. lia.
  - intros j Hj. by rewrite !list_lookup_insert_ne by lia.
Qed.

Lemma for_loop_S {S : Type} (k : nat) (body : nat -> S -> S) (s : S) :
  QuantumScene.for_loop (Datatypes.S k) body s = body k (QuantumScene.for_loop k body s).
Proof.
  unfold QuantumScene.for_loop. by rewrite seq_S, fold_left_app.
Qed.

Lemma points_prefix (random : nat -> num) (n k : nat) (s0 : QuantumScene.cloud) :
  k * 3 <= n -> length (QuantumScene.p s0) = n -> QuantumScene.drawn s0 = 0 ->
  let s := QuantumScene.for_loop k (QuantumScene.point random) s0 in
  length (QuantumScene.p s) = n /\
  QuantumScene.drawn s = 3 * k /\
  (forall j, k * 3 <= j -> QuantumScene.p s !! j = QuantumScene.p s0 !! j) /\
  forall i, i < k ->
    let theta := fmul (fmul (random (3 * i)) PI) (of_Z 2) in
    let phi := facos (fsub (fmul (random (3 * i + 1)) (of_Z 2)) (of_Z 1)) in
    let r := fadd (of_Z 3) (fmul (random (3 * i + 2)) (of_decimal 5 1)) in
    QuantumScene.p s !! (3 * i) = Some (fround (fmul (fmul r (fsin phi)) (fcos theta))) /\
    QuantumScene.p s !! (3 * i + 1) = Some (fround (fmul (fmul r (fsin phi)) (fsin theta))) /\
    QuantumScene.p s !! (3 * i + 2) = Some (fround (fmul r (fcos phi))).
Proof.
  intros Hk Hn Hd. induction k as [|k IH]; cbn zeta.
  - split4; try done. intros i Hi. lia.
  - rewrite for_loop_S. destruct IH as (Hlen & Hdr & Hrest & Hdone); [lia|].
    set (s := QuantumScene.for_loop k (QuantumScene.point random) s0) in *.
    destruct (point_spec random k s) as (Hl' & Hd' & Hx & Hy & Hz & Hold); [lia|].
    rewrite Hdr in Hx, Hy, Hz. split4.
    + congruence.
    + lia.
    + intros j Hj. unfold QuantumScene.point. cbn [QuantumScene.p].
      rewrite !list_lookup_insert_ne by lia. apply Hrest. lia.
    + intros i Hi. destruct (decide (i = k)) as [->|Hne].
      * replace (k * 3) with (3 * k) in Hx, Hy, Hz by lia. done.
      * destruct (Hdone i) as (Hx' & Hy' & Hz'); [lia|].
        rewrite !Hold by lia. done.
Qed.

(** The loop of [SatellitePoints] fills the whole array and nothing else:
    the array keeps its [3 * count] slots, [Math.random] is called
    [3 * count] times, and slots [3i], [3i+1], [3i+2] hold the rounded x,
    y and z of point [i], computed from calls [3i], [3i+1] and [3i+2] of
    [Math.random] (angle, inclination, radius). No store falls outside
    the array. *)
Theorem points_fill_the_array (random : nat -> num) (count i : nat) :
  i < count ->
  let theta := fmul (fmul (random (3 * i)) PI) (of_Z 2) in
  let phi := facos (fsub (fmul (random (3 * i + 1)) (of_Z 2)) (of_Z 1)) in
  let r := fadd (of_Z 3) (fmul (random (3 * i + 2)) (of_decimal 5 1)) in
  let c := QuantumScene.points random count in
  length (QuantumScene.p c) = 3 * count /\
  QuantumScene.drawn c = 3 * count /\
  QuantumScene.p c !! (3 * i) = Some (fround (fmul (fmul r (fsin phi)) (fcos theta))) /\
  QuantumScene.p c !! (3 * i + 1) = Some (fround (fmul (fmul r (fsin phi)) (fsin theta))) /\
  QuantumScene.p c !! (3 * i + 2) = Some (fround (fmul r (fcos phi))).
Proof.
  intros Hi theta phi r c. subst c. unfold QuantumScene.points.
  destruct (points_prefix random (count * 3) count
              {| QuantumScene.p := replicate (count * 3) (of_Z 0);
                 QuantumScene.drawn := 0 |})
    as (Hlen & Hdr & _ & Hall); [lia|apply length_replicate|done|].
  destruct (Hall i Hi) as (Hx & Hy & Hz).
  split; [lia|]. split4; done.
Qed.

End QuantumScene_properties.

(** * The further properties at work on sample runs *)

Lemma user_turns_are_trimmed_witness :
  reachable s_pending /\
  {| role := user; text := str "a" |} ∈ messages s_pending /\
  trimmed (str "a") /\ str "a" <> [] /\ trim (str "a") = str "a".
Proof.
  assert ({| role := user; text := str "a" |} ∈ messages s_pending) as Hin.
  { apply list_elem_of_In. vm_compute. repeat ((left; reflexivity) || right). }
  split; [exact s_pending_reachable|]. split; [exact Hin|].
  exact (user_turns_are_trimmed s_pending {| role := user; text := str "a" |}
           s_pending_reachable Hin eq_refl).
Defined.

Lemma payloads_are_the_user_turns_witness :
  reachable s_pending /\ payloads s_pending = [str "a"] /\
  payloads s_pending = user_texts s_pending.
Proof.
  split3; [exact s_pending_reachable|reflexivity|].
  exact (payloads_are_the_user_turns s_pending s_pending_reachable).
Defined.

Lemma transcript_length_accounts_for_requests_witness :
  reachable s_pending /\
  (length (messages s_pending) + size (inflight s_pending)
     = 1 + 2 * length (requests s_pending))%nat /\
  length (requests s_pending) = next_request s_pending.
Proof.
  split; [exact s_pending_reachable|].
  exact (transcript_length_accounts_for_requests s_pending s_pending_reachable).
Defined.

Lemma pending_flag_has_a_request_witness :
  reachable s_pending /\ isLoading s_pending = true /\ inflight s_pending <> ∅.
Proof.
  split3; [exact s_pending_reachable|reflexivity|].
  exact (pending_flag_has_a_request s_pending s_pending_reachable eq_refl).
Defined.

Lemma no_overlap_without_enter_while_pending_witness :
  mount env_ok = Normal s_ok /\
  polite polite_run s_ok = true /\
  (size (inflight (steps polite_run s_ok)) <= 1)%nat /\
  (isLoading (steps polite_run s_ok) = true <->
   size (inflight (steps polite_run s_ok)) = 1%nat).
Proof.
  split3; [reflexivity|reflexivity|].
  exact (no_overlap_without_enter_while_pending env_ok s_ok polite_run eq_refl eq_refl).
Defined.

Lemma turns_alternate_without_enter_while_pending_witness :
  mount env_ok = Normal s_ok /\
  polite polite_run s_ok = true /\
  role <$> messages (steps polite_run s_ok) = [model; user; model; user] /\
  (forall i m, messages (steps polite_run s_ok) !! i = Some m ->
     role m = if Nat.even i then model else user) /\
  Nat.even (length (messages (steps polite_run s_ok))) = isLoading (steps polite_run s_ok).
Proof.
  split4; [reflexivity|reflexivity|reflexivity|].
  exact (turns_alternate_without_enter_while_pending env_ok s_ok polite_run
           eq_refl eq_refl).
Defined.

Lemma response_text_is_shown_verbatim_witness :
  reachable s_pending /\
  inflight s_pending !! 0%nat = Some handleSend_resume /\
  ([0x20; 0x20] : jsstring) <> [] /\
  blank [0x20; 0x20] = true /\
  messages (step (Settle 0 (Fulfilled {| response_text := Some [0x20; 0x20] |})) s_pending) =
    messages s_pending ++ [{| role := model; text := [0x20; 0x20] |}].
Proof.
  split; [exact s_pending_reachable|]. split; [reflexivity|]. split; [done|].
  split; [reflexivity|].
  apply (response_text_is_shown_verbatim s_pending 0 handleSend_resume [0x20; 0x20]
           s_pending_reachable eq_refl).
  done.
Defined.

Lemma settlement_frame_witness :
  reachable s_pending /\
  inflight s_pending !! 0%nat = Some handleSend_resume /\
  input (step (Settle 0 (Rejected (Error []))) s_pending) = input s_pending /\
  isOpen (step (Settle 0 (Rejected (Error []))) s_pending) = isOpen s_pending /\
  chatSession (step (Settle 0 (Rejected (Error []))) s_pending) = chatSession s_pending /\
  requests (step (Settle 0 (Rejected (Error []))) s_pending) = requests s_pending /\
  inflight (step (Settle 0 (Rejected (Error []))) s_pending) = delete 0%nat (inflight s_pending) /\
  length (messages (step (Settle 0 (Rejected (Error []))) s_pending))
    = S (length (messages s_pending)).
Proof.
  split; [exact s_pending_reachable|]. split; [reflexivity|].
  exact (settlement_frame s_pending 0 handleSend_resume (Rejected (Error []))
           s_pending_reachable eq_refl).
Defined.

Lemma dark_class_follows_isDark_witness :
  NoDup [str "dark"; str "theme"] /\
  Website.classList (Website.page_mount (num := Z) [str "dark"; str "theme"]) = [str "theme"] /\
  Website.classList
    (Website.page_steps page_run (Website.page_mount [str "dark"; str "theme"]))
    = [str "theme"; str "dark"] /\
  NoDup (Website.classList
           (Website.page_steps page_run (Website.page_mount [str "dark"; str "theme"]))).
Proof.
  assert (NoDup [str "dark"; str "theme"]) as Hnd.
  { apply NoDup_cons. split; [|apply NoDup_singleton].
    intros Hin. apply list_elem_of_singleton in Hin. discriminate. }
  split; [exact Hnd|]. split; [reflexivity|]. split; [reflexivity|].
  destruct (dark_class_follows_isDark (num := Z) [str "dark"; str "theme"] page_run)
    as (_ & _ & Hkeep & _).
  exact (Hkeep Hnd).
Defined.

Lemma points_fill_the_array_witness :
  (7 < 200)%nat /\
  length (QuantumScene.p (QuantumScene.points counting_random 200)) = 600%nat /\
  QuantumScene.drawn (QuantumScene.points counting_random 200) = 600%nat /\
  QuantumScene.p (QuantumScene.points counting_random 200) !! 21%nat
    = Some (fround (fmul (fmul (fadd (of_Z 3) (fmul 23%Z (of_decimal 5 1)))
                            (fsin (facos (fsub (fmul 22%Z (of_Z 2)) (of_Z 1)))))
                      (fcos (fmul (fmul 21%Z PI) (of_Z 2))))).
Proof.
  split; [lia|].
  destruct (points_fill_the_array counting_random 200 7) as (Hl & Hd & Hx & _);
    [lia|].
  split3; [exact Hl|exact Hd|exact Hx].
Defined.
